(** * NeoMutt: the growable Buffer (lib/lib_buffer.c) and the IMAP
      AUTHENTICATE PLAIN driver (imap/auth_plain.c)

    A shallow embedding of the two translation units and the properties their
    design description states about them.

    Conventions of the embedding.
    - A [char] is an [ascii]; a block of memory (a [char] array, a heap
      block) is a [list ascii], indexed from 0.  A store through an index is
      stdpp's [<[i:=c]>]; a C string is read from an offset up to the first
      NUL.
    - A pointer into a block is the offset from the block's start; the null
      pointer is [None].
    - [size_t] quantities are sizes of, and offsets into, live objects and are
      kept in [nat]; the [int] locals of [mutt_buffer_printf] are 32-bit and
      their conversions are written out with [to_int].
    - The functions the two files call but do not define (allocator, string
      helpers, account prompts, IMAP command layer, socket, message display)
      are either modelled from the design description, under a comment that
      says so, or recorded as events of a trace. *)

From Stdlib Require Import ZArith Lia Ascii String.
From stdpp Require Import base list strings sets.

Local Open Scope nat_scope.

(** ** C memory: characters, blocks, strings *)

Module CMem.

Definition NUL : ascii := "000"%char.

(** [strlen(p)]: the number of characters before the first NUL of the
    memory [m] that starts at [p] (the whole of [m] when it holds none). *)
Fixpoint strlen (m : list ascii) : nat :=
  match m with
  | [] => 0
  | c :: m' => if decide (c = NUL) then 0 else S (strlen m')
  end.

(** The C string that a reader sees at [m + off]. *)
Definition c_str (m : list ascii) (off : nat) : list ascii :=
  take (strlen (drop off m)) (drop off m).

(** [memcpy(m + off, src, n)] inside the block [m]. *)
Definition memcpy (m : list ascii) (off : nat) (src : list ascii) (n : nat)
  : list ascii :=
  list_inserts off (take n src) m.

(** A string literal as the characters it stands for (no terminator). *)
Definition chars (s : string) : list ascii := list_ascii_of_string s.

(** A string literal as it lies in memory: its characters and the NUL. *)
Definition literal (s : string) : list ascii := chars s ++ [NUL].

(** No character of [a] is the terminator. *)
Definition no_nul (a : list ascii) : Prop := Forall (fun c => c <> NUL) a.

End CMem.

Import CMem.

(** ** lib/lib_buffer.c *)

Module Buffer.

(** [struct Buffer]: [data] is the heap block (or NULL), [dptr] the write
    position as an offset into [data] (or NULL), [dsize] the recorded
    capacity. *)
Record Buffer := mkBuffer {
  data : option (list ascii);
  dptr : option nat;
  dsize : nat
}.

(** Conversion of a mathematical integer to a 32-bit [int]. *)
Definition to_int (z : Z) : Z :=
  ((z + 2 ^ 31) mod 2 ^ 32 - 2 ^ 31)%Z.

(** Conversion of an [int] to [size_t] (64-bit), as for the size argument
    of [vsnprintf]. *)
Definition to_size_t (z : Z) : Z := (z mod 2 ^ 64)%Z.

(** [base + off] for a pointer [base] to the start of a block. *)
Definition ptr_add (base : option (list ascii)) (off : nat) : option nat :=
  match base with
  | Some _ => Some off
  | None => None
  end.

(** [p - base] for [p] inside the block at [base]; NULL - NULL is 0. *)
Definition ptr_diff (p : option nat) : nat :=
  match p with
  | Some off => off
  | None => 0
  end.

(** The block behind a non-null pointer replaced by its new contents. *)
Definition set_block (p : option (list ascii)) (d : list ascii)
  : option (list ascii) :=
  match p with
  | Some _ => Some d
  | None => None
  end.

Section Allocator.

(** What a freshly allocated byte holds is indeterminate: every
    definition and theorem is parametric in it. *)
Variable junk : ascii.

(** Modelled from the spec: [safe_realloc] of lib_memory.c, which lies outside
    the two files verified here.  The block is resized in place of the old one,
    the bytes that both sizes cover are kept; allocation failure is fatal
    and so never returns. A size of zero releases the block. *)
Definition safe_realloc (p : option (list ascii)) (n : nat)
  : option (list ascii) :=
  match n with
  | 0 => None
  | _ => Some (resize n junk (default [] p))
  end.

(** Modelled from the spec: [mutt_strlen] of lib_string.c, which lies outside
    the two files verified here: the length of the string, 0 for NULL. *)
Definition mutt_strlen (s : option (list ascii)) : nat :=
  match s with
  | Some m => strlen m
  | None => 0
  end.

(** Modelled from the spec: [safe_strdup] of lib_string.c, which lies outside
    the two files verified here: a fresh block holding a copy of the string and
    its terminator. *)
Definition safe_strdup (s : option (list ascii)) : option (list ascii) :=
  match s with
  | Some m => Some (c_str m 0 ++ [NUL])
  | None => None
  end.

(** [mutt_buffer_init]: [memset(b, 0, sizeof(struct Buffer))]. *)
Definition mutt_buffer_init (b : Buffer) : Buffer :=
  {| data := None; dptr := None; dsize := 0 |}.

(** [mutt_buffer_new]: a fresh struct, then [mutt_buffer_init].  The
    fields of the fresh struct are indeterminate before the init. *)
Definition mutt_buffer_new : Buffer :=
  mutt_buffer_init {| data := None; dptr := None; dsize := 0 |}.

(** [mutt_buffer_from]. *)
Definition mutt_buffer_from (seed : option (list ascii)) : option Buffer :=
  match seed with
  | None => None
  | Some _ =>
      let b := mutt_buffer_new in
      let data' := safe_strdup seed in
      let dsize' := mutt_strlen seed in
      Some {| data := data'; dsize := dsize'; dptr := ptr_add data' dsize' |}
  end.

(** The test [(buf->dptr + len + 1) > (buf->data + buf->dsize)] of
    [mutt_buffer_add].  With [dptr] inside [data] it compares offsets;
    with both NULL it compares [len + 1] with [dsize]; a NULL [dptr]
    lies below every address of a live block. *)
Definition past_end (b : Buffer) (len : nat) : bool :=
  match dptr b, data b with
  | Some off, _ => bool_decide (dsize b < off + len + 1)
  | None, None => bool_decide (dsize b < len + 1)
  | None, Some _ => false
  end.

(** The increment [(len < 128) ? 128 : len + 1] of [mutt_buffer_add]. *)
Definition add_increment (len : nat) : nat :=
  if bool_decide (len < 128) then 128 else len + 1.

(** [mutt_buffer_add]: the struct behind [buf] after the call.  [buf] and
    [s] may be NULL. *)
Definition mutt_buffer_add (buf : option Buffer) (s : option (list ascii))
    (len : nat) : option Buffer :=
  match buf, s with
  | None, _ => None
  | Some b, None => Some b
  | Some b, Some src =>
      let b1 :=
        if past_end b len then
          let offset := ptr_diff (dptr b) in
          let dsize' := dsize b + add_increment len in
          let data' := safe_realloc (data b) dsize' in
          {| data := data'; dsize := dsize'; dptr := ptr_add data' offset |}
        else b in
      match dptr b1 with
      | None => Some b1
      | Some off =>
          let d := memcpy (default [] (data b1)) off src len in
          let off' := off + len in
          Some {| data := set_block (data b1) (<[off' := NUL]> d);
                  dptr := Some off';
                  dsize := dsize b1 |}
      end
  end.

(** [mutt_buffer_addstr]. *)
Definition mutt_buffer_addstr (buf : option Buffer)
    (s : option (list ascii)) : option Buffer :=
  mutt_buffer_add buf s (mutt_strlen s).

(** [mutt_buffer_addch]: the address of the by-value [c] is never NULL. *)
Definition mutt_buffer_addch (buf : option Buffer) (c : ascii)
  : option Buffer :=
  mutt_buffer_add buf (Some [c]) 1.

(** [vsnprintf(d + off, n, fmt, ap)] of the C library.  [out] is what
    [fmt] and its arguments format to ([None]: an encoding error).  At
    most [n - 1] characters and a NUL are stored when [n] is positive;
    the result is the length of the whole of [out], or negative.  On an
    error the block is taken to be left as it was; the C library leaves
    open what it has stored from the cursor on by then. *)
Definition vsnprintf (d : list ascii) (off : nat) (n : Z)
    (out : option (list ascii)) : list ascii * Z :=
  match out with
  | None => (d, (-1)%Z)
  | Some s =>
      (if bool_decide (0 < n)%Z
       then list_inserts off (take (Z.to_nat n - 1) s ++ [NUL]) d
       else d,
       to_int (Z.of_nat (length s)))
  end.

(** [vsnprintf(buf->dptr, n, fmt, ap)]: the struct after the call and the
    result. *)
Definition vsnprintf_dptr (b : Buffer) (n : Z) (out : option (list ascii))
  : Buffer * Z :=
  let '(d', len) := vsnprintf (default [] (data b)) (ptr_diff (dptr b)) n out in
  ({| data := set_block (data b) d'; dsize := dsize b; dptr := dptr b |}, len).

(** The three statements [buf->dsize += blen; safe_realloc(&buf->data,
    buf->dsize); buf->dptr = buf->data + doff;] that [mutt_buffer_printf]
    runs in both of its growth paths. *)
Definition grow (b : Buffer) (doff blen : Z) : Buffer :=
  let dsize' := Z.to_nat (to_size_t (Z.of_nat (dsize b) + blen)) in
  let data' := safe_realloc (data b) dsize' in
  {| data := data'; dsize := dsize'; dptr := ptr_add data' (Z.to_nat doff) |}.

(** [mutt_buffer_printf]: the struct after the call and the result.
    [out] stands for the format and its arguments (see [vsnprintf]); the
    retry formats the same arguments ([va_copy]). *)
Definition mutt_buffer_printf (b : Buffer) (out : option (list ascii))
  : Buffer * Z :=
  let b0 := {| data := data b; dsize := dsize b;
               dptr := match dptr b with
                       | None => ptr_add (data b) 0
                       | Some off => Some off
                       end |} in
  let doff := to_int (Z.of_nat (ptr_diff (dptr b0))) in
  let blen := to_int (Z.of_nat (dsize b0) - doff) in
  let '(b1, blen) :=
    if bool_decide (blen = 0%Z) then (grow b0 doff 128, 128%Z)
    else (b0, blen) in
  let '(b2, len) := vsnprintf_dptr b1 (to_size_t blen) out in
  let '(b3, len) :=
    if bool_decide (blen <= len)%Z then
      let len := to_int (len + 1) in
      let blen := to_int (len - blen) in
      let blen := if bool_decide (blen < 128)%Z then 128%Z else blen in
      vsnprintf_dptr (grow b2 doff blen) (to_size_t len) out
    else (b2, len) in
  (if bool_decide (0 < len)%Z
   then {| data := data b3; dsize := dsize b3;
           dptr := (fun off => off + Z.to_nat len) <$> dptr b3 |}
   else b3,
   len).

(** Modelled from the spec: Truncate(offset) has no function of its own
    in lib_buffer.c.  The cursor moves back to [offset], which must not
    exceed it, and the terminator is written there; storage is neither
    released nor reallocated. *)
Definition mutt_buffer_truncate (b : Buffer) (offset : nat) : Buffer :=
  match data b, dptr b with
  | Some d, Some off =>
      if bool_decide (offset <= off)
      then {| data := Some (<[offset := NUL]> d);
              dptr := Some offset;
              dsize := dsize b |}
      else b
  | _, _ => b
  end.

End Allocator.

(** *** Observations on a buffer *)

(** The cursor: the offset of the write position. *)
Definition cursor (b : Buffer) : nat := ptr_diff (dptr b).

(** The byte at the cursor is the terminator. *)
Definition nul_at_cursor (b : Buffer) : bool :=
  match data b, dptr b with
  | Some d, Some off => bool_decide (d !! off = Some NUL)
  | _, _ => false
  end.

(** The cursor does not exceed [dsize - 1]. *)
Definition cursor_below_dsize (b : Buffer) : bool :=
  bool_decide (cursor b + 1 <= dsize b).

(** The terminator lies at the cursor, and the cursor inside the recorded
    capacity with a byte to spare. *)
Definition terminated_within (b : Buffer) : Prop :=
  nul_at_cursor b = true /\ cursor_below_dsize b = true.

(** The bytes written so far: the block up to the cursor. *)
Definition written (b : Buffer) : list ascii :=
  take (cursor b) (default [] (data b)).

(** The states the functions of this file leave a buffer in: empty as
    [mutt_buffer_init] leaves it, or with a cursor inside the recorded
    capacity, which the block covers. *)
Definition well_formed (b : Buffer) : Prop :=
  match data b, dptr b with
  | None, None => dsize b = 0
  | Some d, Some off => off <= dsize b /\ dsize b <= length d
  | _, _ => False
  end.

(** *** Two buffers to try the functions on *)

(** The buffer [mutt_buffer_from] builds from the seed ["abc"]. *)
Definition abc_buffer : Buffer :=
  {| data := Some (literal "abc"); dptr := Some 3; dsize := 3 |}.

(** The buffer after ['a'] is appended to a fresh empty one: capacity 128,
    cursor 1. *)
Definition a_buffer : Buffer :=
  {| data := Some ("a"%char :: NUL :: replicate 126 "?"%char);
     dptr := Some 1; dsize := 128 |}.

(** *** Callers' patterns *)

(** A string assembled character by character: [mutt_buffer_addch] for each
    character of [l] in turn. *)
Definition mutt_buffer_addch_all (junk : ascii) (buf : option Buffer)
    (l : list ascii) : option Buffer :=
  foldl (mutt_buffer_addch junk) buf l.

(** A string assembled from pieces: [mutt_buffer_addstr] for each string of
    [ss] in turn. *)
Definition mutt_buffer_addstr_all (junk : ascii) (buf : option Buffer)
    (ss : list (list ascii)) : option Buffer :=
  foldl (fun acc s => mutt_buffer_addstr junk acc (Some s)) buf ss.

End Buffer.

(** ** imap/auth_plain.c *)

Module AuthPlain.

(** Modelled from the spec: the result codes of the command driver
    (imap_private.h lies outside the two files verified here).  A step
    reports more data needed ([IMAP_CMD_CONTINUE]), a continuation request
    ([IMAP_CMD_RESPOND]), success ([IMAP_CMD_OK]), explicit rejection
    ([IMAP_CMD_NO]) or command unavailable ([IMAP_CMD_BAD]). *)
Inductive ImapCmd : Set :=
| IMAP_CMD_OK
| IMAP_CMD_BAD
| IMAP_CMD_NO
| IMAP_CMD_CONTINUE
| IMAP_CMD_RESPOND.

#[global] Instance ImapCmd_eq_dec : EqDecision ImapCmd.
Proof. solve_decision. Defined.

(** Modelled from the spec: [enum ImapAuthRes] (auth.h lies outside the two
    files verified here). *)
Inductive ImapAuthRes : Set :=
| IMAP_AUTH_SUCCESS
| IMAP_AUTH_FAILURE
| IMAP_AUTH_UNAVAIL.

#[global] Instance ImapAuthRes_eq_dec : EqDecision ImapAuthRes.
Proof. solve_decision. Defined.

(** The credential fields of [mdata->conn->account] that the driver reads,
    as the characters of their C strings. *)
Record ConnAccount := mkConnAccount {
  user : list ascii;
  pass : list ascii
}.

(** [struct ImapMboxData], as far as the driver reads it: the account of its
    connection and the negotiated capability bits. *)
Record ImapMboxData := mkImapMboxData {
  account : ConnAccount;
  capabilities : Z
}.

(** Modelled from the spec: the capability query [mutt_bit_isset] (a macro
    defined outside the two files verified here) tells whether bit [n] of
    the capability set is set. *)
Definition mutt_bit_isset (v : Z) (n : nat) : bool :=
  Z.testbit v (Z.of_nat n).

(** What the driver does to its collaborators, in the order it does it: the
    calls to the message display, to the command layer and to the socket,
    with the text handed over; for [imap_cmd_step], with its result. *)
Inductive Event :=
| mutt_message (msg : string)
| mutt_error (msg : string)
| mutt_clear_error
| imap_cmd_start (cmdstr : list ascii)
| imap_cmd_step (rc : ImapCmd)
| mutt_socket_send (buf : list ascii).

#[global] Instance Event_eq_dec : EqDecision Event.
Proof. solve_decision. Defined.

(** The world around one call: the mailbox data behind [mdata], the results
    the command layer has in store for the coming calls of [imap_cmd_step],
    and the trace of events so far. *)
Record World := mkWorld {
  mbox : ImapMboxData;
  server : list ImapCmd;
  trace : list Event
}.

Definition CR : ascii := "013"%char.
Definition LF : ascii := "010"%char.
Definition SP : ascii := " "%char.

(** The string literal ["\r\n"] as it lies in memory. *)
Definition crlf : list ascii := [CR; LF; NUL].

(** [static const char auth_plain_cmd[] = "AUTHENTICATE PLAIN"]. *)
Definition auth_plain_cmd : list ascii := literal "AUTHENTICATE PLAIN".

(** The keyword without its terminator. *)
Definition keyword : list ascii := chars "AUTHENTICATE PLAIN".

(** [sizeof(a)] of a [char] array. *)
Definition sizeof (a : list ascii) : nat := length a.

(** The store [buf[sizeof(auth_plain_cmd) - 1] = '\0'] that splits the
    message after the keyword. *)
Definition split_after_keyword (buf : list ascii) : list ascii :=
  <[sizeof auth_plain_cmd - 1 := NUL]> buf.

(** The loop [while (rc == IMAP_CMD_CONTINUE) rc = imap_cmd_step(mdata);].
    Every call of [imap_cmd_step] takes the next result the command layer
    has in store; with none left the call never returns ([None]). *)
Fixpoint step_while_continue (rc : ImapCmd) (sv : list ImapCmd)
    (tr : list Event) {struct sv}
  : option ImapCmd * list ImapCmd * list Event :=
  match rc with
  | IMAP_CMD_CONTINUE =>
      match sv with
      | [] => (None, [], tr)
      | r :: sv' => step_while_continue r sv' (tr ++ [imap_cmd_step r])
      end
  | _ => (Some rc, sv, tr)
  end.

(** Modelled from the spec: [mutt_str_strcat(d, l, s)] of lib_string.c,
    which lies outside the two files verified here.  The characters of the
    string [s] are appended to the string at offset [d] of the block [m];
    the result with its terminator stays within [l] bytes. *)
Definition mutt_str_strcat (m : list ascii) (d l : nat) (s : list ascii)
  : list ascii :=
  match l with
  | 0 => m
  | S room =>
      let dlen := Nat.min (strlen (drop d m)) room in
      let n := Nat.min (strlen s) (room - dlen) in
      <[d + dlen + n := NUL]> (memcpy m (d + dlen) s n)
  end.

Section Driver.

(** [STRING], the size of the driver's [buf] (defined outside the two files
    verified here). *)
Variable STRING : nat.

(** The number of the SASL-IR capability bit (defined outside the two files
    verified here). *)
Variable SASL_IR : nat.

(** [mutt_account_getuser] and [mutt_account_getpass]: the result code and
    the account after the call. *)
Variable mutt_account_getuser : ConnAccount -> Z * ConnAccount.
Variable mutt_account_getpass : ConnAccount -> Z * ConnAccount.

(** The SASL PLAIN payload encoder: authorization identity, authentication
    identity and password to the transport-encoded payload. *)
Variable encode_plain : list ascii -> list ascii -> list ascii -> list ascii.

(** Modelled from the spec: [mutt_sasl_plain_msg(buf, buflen, cmd, authz,
    user, pass)], which lies outside the two files verified here.  It leaves
    in [buf] the command text: [cmd], a single space and the encoded
    payload, cut to the [buflen - 1] characters that fit before the
    terminator. *)
Definition mutt_sasl_plain_msg (buf : list ascii) (buflen : nat)
    (cmd authz usr pwd : list ascii) : list ascii :=
  let text := c_str cmd 0 ++ [SP] ++ encode_plain authz usr pwd in
  list_inserts 0 (take (buflen - 1) text ++ [NUL]) buf.

(** [imap_auth_plain(mdata, method)], run in a world [w]: the result
    ([None] when a call of [imap_cmd_step] never returns) and the world it
    leaves. *)
Definition imap_auth_plain (method : list ascii) (w : World)
  : option ImapAuthRes * World :=
  let rc := IMAP_CMD_CONTINUE in
  let res := IMAP_AUTH_SUCCESS in
  let buf := replicate STRING NUL in
  let '(r1, acct1) := mutt_account_getuser (account (mbox w)) in
  let mdata1 := {| account := acct1; capabilities := capabilities (mbox w) |} in
  if bool_decide (r1 < 0)%Z then
    (Some IMAP_AUTH_FAILURE,
     {| mbox := mdata1; server := server w; trace := trace w |})
  else
  let '(r2, acct2) := mutt_account_getpass acct1 in
  let mdata2 := {| account := acct2; capabilities := capabilities (mbox w) |} in
  if bool_decide (r2 < 0)%Z then
    (Some IMAP_AUTH_FAILURE,
     {| mbox := mdata2; server := server w; trace := trace w |})
  else
  let tr := trace w ++ [mutt_message "Logging in..."] in
  let buf := mutt_sasl_plain_msg buf (sizeof buf) auth_plain_cmd
               (user acct2) (user acct2) (pass acct2) in
  let '(rc1, sv1, tr1) :=
    if mutt_bit_isset (capabilities mdata2) SASL_IR then
      (Some rc, server w, tr ++ [imap_cmd_start (c_str buf 0)])
    else
      let buf := split_after_keyword buf in
      let tr := tr ++ [imap_cmd_start (c_str buf 0)] in
      match step_while_continue rc (server w) tr with
      | (Some IMAP_CMD_RESPOND, sv, tr) =>
          let buf := mutt_str_strcat buf (sizeof auth_plain_cmd)
                       (sizeof buf - sizeof auth_plain_cmd) crlf in
          (Some IMAP_CMD_RESPOND, sv,
           tr ++ [mutt_socket_send (c_str buf (sizeof auth_plain_cmd))])
      | other => other
      end in
  match rc1 with
  | None => (None, {| mbox := mdata2; server := sv1; trace := tr1 |})
  | Some rc1 =>
      match step_while_continue rc1 sv1 tr1 with
      | (None, sv2, tr2) =>
          (None, {| mbox := mdata2; server := sv2; trace := tr2 |})
      | (Some rc2, sv2, tr2) =>
          let '(res, tr3) :=
            match rc2 with
            | IMAP_CMD_BAD => (IMAP_AUTH_UNAVAIL, tr2)
            | IMAP_CMD_NO =>
                (IMAP_AUTH_FAILURE, tr2 ++ [mutt_error "Login failed"])
            | _ => (res, tr2)
            end in
          (Some res,
           {| mbox := mdata2; server := sv2;
              trace := tr3 ++ [mutt_clear_error] |})
      end
  end.

(** The driver's buffer after [mutt_sasl_plain_msg], for the account [acct]
    that the two prompts leave. *)
Definition message_buf (acct : ConnAccount) : list ascii :=
  mutt_sasl_plain_msg (replicate STRING NUL)
    (sizeof (replicate STRING NUL)) auth_plain_cmd
    (user acct) (user acct) (pass acct).

(** The texts the driver reads from its buffer: the command with SASL-IR,
    the command without it, and the continuation response. *)
Definition full_text (acct : ConnAccount) : list ascii :=
  c_str (message_buf acct) 0.

Definition keyword_text (acct : ConnAccount) : list ascii :=
  c_str (split_after_keyword (message_buf acct)) 0.

Definition response_text (acct : ConnAccount) : list ascii :=
  c_str (mutt_str_strcat (split_after_keyword (message_buf acct))
           (sizeof auth_plain_cmd)
           (sizeof (split_after_keyword (message_buf acct))
            - sizeof auth_plain_cmd)
           crlf)
    (sizeof auth_plain_cmd).

End Driver.

(** *** Observations on a trace *)

(** The wire traffic of a trace: the commands started and the raw sends. *)
Definition is_wire (e : Event) : bool :=
  match e with
  | imap_cmd_start _ | mutt_socket_send _ => true
  | _ => false
  end.

Definition wire (tr : list Event) : list Event := List.filter is_wire tr.

(** The results [imap_cmd_step] returned, in order. *)
Definition steps (tr : list Event) : list ImapCmd :=
  omap (fun e => match e with imap_cmd_step r => Some r | _ => None end) tr.

(** The number of error notifications. *)
Definition is_error (e : Event) : bool :=
  match e with
  | mutt_error _ => true
  | _ => false
  end.

Definition errors (tr : list Event) : nat :=
  length (List.filter is_error tr).

(** The results a loop [while (rc == IMAP_CMD_CONTINUE)] takes from the
    command layer's store: up to and with the first one that is not
    [IMAP_CMD_CONTINUE]. *)
Fixpoint consumed (sv : list ImapCmd) : list ImapCmd :=
  match sv with
  | [] => []
  | r :: sv' =>
      r :: (if decide (r = IMAP_CMD_CONTINUE) then consumed sv' else [])
  end.

(** The first result in store that is not [IMAP_CMD_CONTINUE], if any. *)
Fixpoint settled (sv : list ImapCmd) : option ImapCmd :=
  match sv with
  | [] => None
  | r :: sv' => if decide (r = IMAP_CMD_CONTINUE) then settled sv' else Some r
  end.

(** The classification of the result the loops end with. *)
Definition classify (rc : ImapCmd) : ImapAuthRes :=
  match rc with
  | IMAP_CMD_BAD => IMAP_AUTH_UNAVAIL
  | IMAP_CMD_NO => IMAP_AUTH_FAILURE
  | _ => IMAP_AUTH_SUCCESS
  end.

(** The error notification that goes with it. *)
Definition report (rc : ImapCmd) : list Event :=
  match rc with
  | IMAP_CMD_NO => [mutt_error "Login failed"]
  | _ => []
  end.

(** A terminal result of the command driver. *)
Definition terminal (rc : ImapCmd) : bool :=
  match rc with
  | IMAP_CMD_OK | IMAP_CMD_NO | IMAP_CMD_BAD => true
  | IMAP_CMD_CONTINUE | IMAP_CMD_RESPOND => false
  end.

(** *** A sample environment *)

(** Credentials that are there already, and a prompt the user cancels. *)
Definition account_ready (a : ConnAccount) : Z * ConnAccount := (0%Z, a).
Definition prompt_cancelled (a : ConnAccount) : Z * ConnAccount := ((-1)%Z, a).

(** A stand-in for the encoder: the payload of user ["user"] with password
    ["pass"]. *)
Definition sample_payload : list ascii := chars "dXNlcgB1c2VyAHBhc3M=".

Definition sample_encode (authz usr pwd : list ascii) : list ascii :=
  sample_payload.

Definition sample_account : ConnAccount :=
  {| user := chars "user"; pass := chars "pass" |}.

(** A world with bit 11 as the SASL-IR capability, set or not, the results
    [sv] in store and nothing traced yet. *)
Definition sample_world (sasl_ir : bool) (sv : list ImapCmd) : World :=
  {| mbox := {| account := sample_account;
                capabilities := if sasl_ir then 2048%Z else 0%Z |};
     server := sv;
     trace := [] |}.



End AuthPlain.

(** ** Properties of lib/lib_buffer.c *)

Module BufferFacts.
Import Buffer.

Lemma to_int_id (z : Z) :
  (- 2 ^ 31 <= z < 2 ^ 31)%Z -> to_int z = z.
Proof.
  intros Hz. unfold to_int.
  rewrite Z.mod_small; lia.
Qed.

Lemma to_size_t_id (z : Z) :
  (0 <= z < 2 ^ 31)%Z -> to_size_t z = z.
Proof.
  intros Hz. unfold to_size_t.
  rewrite Z.mod_small; lia.
Qed.

Lemma strlen_le (m : list ascii) : strlen m <= length m.
Proof. induction m as [|c m IH]; cbn; [done|]. case_decide; lia. Qed.

Lemma length_c_str_0 (m : list ascii) : length (c_str m 0) = strlen m.
Proof.
  unfold c_str. rewrite drop_0, length_take.
  pose proof (strlen_le m). lia.
Qed.

Lemma add_increment_ge (len : nat) : len + 1 <= add_increment len.
Proof. unfold add_increment. case_bool_decide; lia. Qed.

Lemma add_increment_floor (len : nat) : 128 <= add_increment len.
Proof. unfold add_increment. case_bool_decide; lia. Qed.

Lemma take_inserts (l k : list ascii) (i : nat) :
  take i (list_inserts i k l) = take i l.
Proof.
  apply list_eq. intros j.
  destruct (decide (j < i)) as [Hj|Hj].
  - rewrite !lookup_take_lt by done. by apply list_lookup_inserts_lt.
  - rewrite !lookup_take_ge by lia. done.
Qed.

Lemma take_memcpy (m src : list ascii) (off len : nat) (pre : list ascii) :
  off + len <= length m -> len <= length src -> take off m = pre ->
  take (off + len) (memcpy m off src len) = pre ++ take len src.
Proof.
  intros Hm Hsrc Hpre. unfold memcpy.
  rewrite <- (take_drop off m) at 1.
  assert (length (take off m) = off) as Hlt by (rewrite length_take; lia).
  rewrite <- Hlt at 2.
  rewrite <- (Nat.add_0_r (length (take off m))) at 1.
  rewrite list_inserts_app_r.
  rewrite take_app_add' by done.
  rewrite Hpre. f_equal.
  rewrite <- (take_drop len (drop off m)).
  rewrite list_inserts_0_r.
  - rewrite take_app_length'; [done|]. rewrite length_take. lia.
  - rewrite !length_take, length_drop. lia.
Qed.

Lemma lookup_inserts_end (l k : list ascii) (i : nat) (c : ascii) :
  i + length k < length l ->
  list_inserts i (k ++ [c]) l !! (i + length k) = Some c.
Proof.
  intros Hlen.
  rewrite list_lookup_inserts.
  - replace (i + length k - i) with (length k) by lia.
    by rewrite lookup_app_r, Nat.sub_diag.
  - rewrite length_app. simpl. lia.
  - done.
Qed.

Section Add.

Variable junk : ascii.

Lemma safe_realloc_pos (p : option (list ascii)) (n : nat) :
  n <> 0 -> safe_realloc junk p n = Some (resize n junk (default [] p)).
Proof. intros Hn. unfold safe_realloc. by destruct n. Qed.

(** What [mutt_buffer_add] does to a well-formed buffer, field by field. *)
Lemma mutt_buffer_add_spec (b : Buffer) (src : list ascii) (len : nat) :
  well_formed b ->
  exists d',
    mutt_buffer_add junk (Some b) (Some src) len
    = Some {| data := Some d';
              dptr := Some (cursor b + len);
              dsize := dsize b
                       + (if past_end b len then add_increment len else 0) |}
    /\ past_end b len = bool_decide (dsize b < cursor b + len + 1)
    /\ dsize b + (if past_end b len then add_increment len else 0)
       <= length d'
    /\ cursor b + len + 1
       <= dsize b + (if past_end b len then add_increment len else 0)
    /\ d' !! (cursor b + len) = Some NUL
    /\ take (cursor b) d' = written b
    /\ (len <= length src ->
        take (cursor b + len) d' = written b ++ take len src).
Proof.
  intros Hwf.
  pose proof (add_increment_ge len) as Hinc.
  destruct b as [[d|] [off|] ds]; cbn in Hwf; try done.
  - (* a block and a cursor inside it *)
    destruct Hwf as [Hoff Hds].
    unfold mutt_buffer_add, past_end, cursor, written; cbn.
    case_bool_decide as Hgrow; cbn.
    + (* realloc *)
      rewrite safe_realloc_pos by lia. cbn.
      eexists. split; [reflexivity|].
      assert (length (memcpy (resize (ds + add_increment len) junk d)
                        off src len) = ds + add_increment len) as Hlen.
      { unfold memcpy. by rewrite length_inserts, length_resize. }
      split_and!.
      * done.
      * by rewrite length_insert, Hlen.
      * lia.
      * apply list_lookup_insert_eq. lia.
      * rewrite take_insert_ge by lia.
        unfold memcpy.
        rewrite take_inserts, take_resize_le by lia.
        apply resize_le. lia.
      * intros Hsrc.
        rewrite take_insert_ge by lia.
        apply take_memcpy; [rewrite length_resize; lia | lia |].
        rewrite take_resize_le by lia. apply resize_le. lia.
    + (* room enough *)
      rewrite Nat.add_0_r.
      eexists. split; [reflexivity|].
      assert (length (memcpy d off src len) = length d) as Hlen.
      { unfold memcpy. by rewrite length_inserts. }
      split_and!.
      * done.
      * rewrite length_insert, Hlen. lia.
      * lia.
      * apply list_lookup_insert_eq. lia.
      * rewrite take_insert_ge by lia. unfold memcpy. apply take_inserts.
      * intros Hsrc. rewrite take_insert_ge by lia.
        apply take_memcpy; [lia|lia|done].
  - (* the empty buffer *)
    subst ds.
    unfold mutt_buffer_add, past_end, cursor, written; cbn.
    rewrite bool_decide_eq_true_2 by lia. cbn.
    pose proof (add_increment_floor len) as Hfloor.
    rewrite safe_realloc_pos by lia. cbn.
    eexists. split; [reflexivity|].
    assert (length (memcpy (resize (add_increment len) junk []) 0 src len)
            = add_increment len) as Hlen.
    { unfold memcpy. by rewrite length_inserts, length_resize. }
    split_and!.
    + done.
    + by rewrite length_insert, Hlen.
    + lia.
    + apply list_lookup_insert_eq. lia.
    + done.
    + intros Hsrc. rewrite take_insert_ge by lia.
      apply (take_memcpy _ src 0 len []); [|lia|done].
      rewrite length_resize. lia.
Qed.

(** After an append the terminator is at the cursor, inside the recorded
    capacity, and the buffer is well formed again. *)
Lemma mutt_buffer_add_terminated (b : Buffer) (src : list ascii) (len : nat) :
  well_formed b ->
  exists b',
    mutt_buffer_add junk (Some b) (Some src) len = Some b'
    /\ terminated_within b' /\ well_formed b'.
Proof.
  intros Hwf.
  destruct (mutt_buffer_add_spec b src len Hwf)
    as (d' & -> & _ & Hlen & Hcur & Hnul & _).
  eexists. split; [reflexivity|].
  unfold terminated_within, nul_at_cursor, cursor_below_dsize, well_formed.
  cbn. rewrite !bool_decide_eq_true. cbn.
  split_and!; try done; lia.
Qed.

Lemma vsnprintf_dptr_some (d : list ascii) (off ds : nat) (n : Z)
    (s : list ascii) :
  (0 < n)%Z -> (Z.of_nat (length s) < 2 ^ 31)%Z ->
  vsnprintf_dptr {| data := Some d; dptr := Some off; dsize := ds |} n (Some s)
  = ({| data := Some (list_inserts off (take (Z.to_nat n - 1) s ++ [NUL]) d);
        dptr := Some off; dsize := ds |},
     Z.of_nat (length s)).
Proof.
  intros Hn Hs. unfold vsnprintf_dptr, vsnprintf. cbn.
  rewrite bool_decide_eq_true_2 by done.
  rewrite to_int_id by lia. done.
Qed.

Lemma grow_block (d : option (list ascii)) (p : option nat) (ds off : nat)
    (blen : Z) :
  (0 < blen)%Z -> (Z.of_nat ds + blen < 2 ^ 31)%Z ->
  grow junk {| data := d; dptr := p; dsize := ds |} (Z.of_nat off) blen
  = {| data := Some (resize (ds + Z.to_nat blen) junk (default [] d));
       dptr := Some off; dsize := ds + Z.to_nat blen |}.
Proof.
  intros Hpos Hbound. unfold grow. cbn.
  rewrite to_size_t_id by lia.
  replace (Z.to_nat (Z.of_nat ds + blen)) with (ds + Z.to_nat blen) by lia.
  rewrite safe_realloc_pos by lia. cbn.
  by rewrite Nat2Z.id.
Qed.

Lemma grow_block_0 (d : option (list ascii)) (p : option nat) (ds : nat)
    (blen : Z) :
  (0 < blen)%Z -> (Z.of_nat ds + blen < 2 ^ 31)%Z ->
  grow junk {| data := d; dptr := p; dsize := ds |} 0 blen
  = {| data := Some (resize (ds + Z.to_nat blen) junk (default [] d));
       dptr := Some 0; dsize := ds + Z.to_nat blen |}.
Proof. apply (grow_block d p ds 0 blen). Qed.

Lemma store_string (d : list ascii) (off n : nat) (out : list ascii) :
  length out <= n -> off + length out < length d ->
  list_inserts off (take n out ++ [NUL]) d !! (off + length out) = Some NUL
  /\ take off (list_inserts off (take n out ++ [NUL]) d) = take off d.
Proof.
  intros Hn Hd. rewrite take_ge by lia. split.
  - by apply lookup_inserts_end.
  - apply take_inserts.
Qed.

Lemma take_resize_keep (l : list ascii) (i n : nat) :
  i <= n -> i <= length l -> take i (resize n junk l) = take i l.
Proof.
  intros Hn Hl. rewrite take_resize_le by done. by apply resize_le.
Qed.

(** The growth of the retry path of [mutt_buffer_printf]. *)
Lemma retry_increment (len blen : Z) :
  (0 < blen <= len)%Z ->
  let inc := if bool_decide (len + 1 - blen < 128)%Z
             then 128%Z else (len + 1 - blen)%Z in
  (128 <= inc /\ len + 1 - blen <= inc
   /\ (inc = 128 \/ inc = len + 1 - blen))%Z.
Proof. intros Hb. cbn. case_bool_decide; lia. Qed.

Local Ltac printf_sizes :=
  rewrite ?length_inserts, ?length_resize; lia.

Local Ltac printf_done :=
  unfold id, cursor; cbn [ptr_diff dptr];
  split_and!;
  [ lia
  | printf_sizes
  | lia
  | apply store_string; printf_sizes
  | repeat first
      [ rewrite take_inserts
      | rewrite take_resize_keep by printf_sizes ];
    done ].

Local Ltac printf_retry Hlen :=
  rewrite (to_int_id (_ + 1)) by lia;
  rewrite (to_int_id (_ - _)) by lia;
  match goal with
  | |- context [grow _ _ _ (if bool_decide (?l + 1 - ?bl < 128)%Z
                            then _ else _)] =>
      pose proof (retry_increment l bl ltac:(lia)) as Hinc;
      cbn zeta in Hinc;
      set (inc := if bool_decide (l + 1 - bl < 128)%Z
                  then 128%Z else (l + 1 - bl)%Z) in *
  end;
  first [rewrite grow_block by lia | rewrite grow_block_0 by lia];
  rewrite to_size_t_id by lia;
  rewrite vsnprintf_dptr_some by lia;
  rewrite bool_decide_eq_true_2 by lia;
  cbn [data dptr dsize fmap option_fmap option_map default];
  eexists _, _; split; [by rewrite Nat2Z.id|];
  printf_done.

Local Ltac printf_fits Hlen :=
  case_bool_decide;
  cbn [data dptr dsize fmap option_fmap option_map default];
  (eexists _, _; split;
   [ first [ by rewrite Nat2Z.id
           | by replace (length _) with 0 by lia; rewrite Nat.add_0_r ]
   | printf_done ]).

(** [mutt_buffer_printf] on a well-formed buffer whose sizes fit an [int]:
    the struct it leaves after formatting [out], and its result. *)
Lemma mutt_buffer_printf_spec (b : Buffer) (out : list ascii) :
  well_formed b ->
  (Z.of_nat (dsize b) + Z.of_nat (length out) + 129 < 2 ^ 31)%Z ->
  exists d' ds',
    mutt_buffer_printf junk b (Some out)
    = ({| data := Some d'; dptr := Some (cursor b + length out);
          dsize := ds' |}, Z.of_nat (length out))
    /\ dsize b <= ds' /\ ds' <= length d'
    /\ cursor b + length out + 1 <= ds'
    /\ d' !! (cursor b + length out) = Some NUL
    /\ take (cursor b) d' = written b.
Proof.
  intros Hwf Hbound.
  destruct b as [[d|] [off|] ds]; cbn in Hwf, Hbound; try done.
  - destruct Hwf as [Hoff Hds].
    unfold mutt_buffer_printf, cursor, written.
    cbn [data dptr dsize ptr_diff ptr_add default].
    rewrite (to_int_id (Z.of_nat off)) by lia.
    rewrite (to_int_id (Z.of_nat ds - Z.of_nat off)) by lia.
    case_bool_decide as Hblen.
    + rewrite grow_block by lia.
      rewrite to_size_t_id by lia.
      rewrite vsnprintf_dptr_some by lia.
      case_bool_decide as Hlen.
      * printf_retry Hlen.
      * printf_fits Hlen.
    + rewrite to_size_t_id by lia.
      rewrite vsnprintf_dptr_some by lia.
      case_bool_decide as Hlen.
      * printf_retry Hlen.
      * printf_fits Hlen.
  - subst ds.
    unfold mutt_buffer_printf, cursor, written.
    cbn [data dptr dsize ptr_diff ptr_add default].
    change (Z.of_nat 0) with 0%Z.
    rewrite (to_int_id 0) by lia.
    rewrite (to_int_id (0 - 0)) by lia.
    rewrite bool_decide_eq_true_2 by lia.
    rewrite grow_block_0 by lia.
    rewrite to_size_t_id by lia.
    rewrite vsnprintf_dptr_some by lia.
    case_bool_decide as Hlen.
    + printf_retry Hlen.
    + printf_fits Hlen.
Qed.

(** A successful format leaves the terminator at the cursor, inside the
    recorded capacity. *)
Lemma mutt_buffer_printf_terminated (b : Buffer) (out : list ascii) :
  well_formed b ->
  (Z.of_nat (dsize b) + Z.of_nat (length out) + 129 < 2 ^ 31)%Z ->
  terminated_within (mutt_buffer_printf junk b (Some out)).1
  /\ well_formed (mutt_buffer_printf junk b (Some out)).1.
Proof.
  intros Hwf Hbound.
  destruct (mutt_buffer_printf_spec b out Hwf Hbound)
    as (d' & ds' & -> & Hds & Hlen & Hcur & Hnul & _).
  unfold terminated_within, nul_at_cursor, cursor_below_dsize, well_formed.
  cbn. rewrite !bool_decide_eq_true. cbn.
  split_and!; try done; lia.
Qed.

End Add.

(** Truncation keeps the terminator at the cursor, inside the recorded
    capacity when it was so before. *)
Lemma mutt_buffer_truncate_terminated (b : Buffer) (offset : nat) :
  well_formed b -> terminated_within b -> offset <= cursor b ->
  terminated_within (mutt_buffer_truncate b offset)
  /\ well_formed (mutt_buffer_truncate b offset)
  /\ cursor (mutt_buffer_truncate b offset) = offset
  /\ dsize (mutt_buffer_truncate b offset) = dsize b.
Proof.
  intros Hwf [Hnul Hcur] Hoff.
  destruct b as [[d|] [off|] ds]; cbn in *; try done.
  unfold mutt_buffer_truncate, terminated_within, nul_at_cursor,
    cursor_below_dsize, well_formed, cursor in *. cbn in *.
  rewrite bool_decide_eq_true in Hcur.
  rewrite bool_decide_eq_true_2 by done. cbn.
  rewrite !bool_decide_eq_true, length_insert.
  split_and!; try done; try lia.
  apply list_lookup_insert_eq. lia.
Qed.

(** A buffer built from a seed: the copy ends in the terminator, at the
    cursor, and the cursor is the recorded capacity itself. *)
Lemma mutt_buffer_from_spec (seed : list ascii) :
  exists b',
    mutt_buffer_from (Some seed) = Some b'
    /\ nul_at_cursor b' = true
    /\ cursor b' = dsize b' /\ dsize b' = strlen seed
    /\ written b' = c_str seed 0
    /\ well_formed b'.
Proof.
  eexists. split; [reflexivity|].
  pose proof (length_c_str_0 seed) as Hlen.
  unfold nul_at_cursor, cursor, written, well_formed. cbn.
  rewrite bool_decide_eq_true, length_app, Hlen. cbn.
  split_and!; try done; try lia.
  - rewrite lookup_app_r by lia. by rewrite Hlen, Nat.sub_diag.
  - rewrite take_app_length'; done.
Qed.

Lemma abc_buffer_from : mutt_buffer_from (Some (literal "abc")) = Some abc_buffer.
Proof. reflexivity. Qed.

(** C3, as stated, fails: right after [mutt_buffer_from] on the seed
    ["abc"] the terminator is at the cursor, but the cursor (3) exceeds
    [dsize - 1] (2). *)
Lemma mutt_buffer_from_cursor_at_dsize :
  exists b,
    mutt_buffer_from (Some (literal "abc")) = Some b
    /\ nul_at_cursor b = true
    /\ cursor b = 3 /\ dsize b = 3
    /\ ~ terminated_within b.
Proof.
  exists abc_buffer. split_and!; try reflexivity.
  intros [_ Hcur]. vm_compute in Hcur. discriminate.
Qed.

(** C3 (amended).  On a well-formed buffer, every append (bytes, string,
    char), every successful format whose sizes fit an [int], and every
    truncation of a buffer that had the property, leaves the terminator at
    the cursor and the cursor at most [dsize - 1].  A buffer built from a
    seed has the terminator at the cursor, but its cursor equals [dsize];
    the empty buffer has no storage and [dsize] 0. *)
Theorem buffer_terminated_after_write (junk : ascii) :
  (forall b : Buffer, well_formed b ->
     (forall src len, exists b',
         mutt_buffer_add junk (Some b) (Some src) len = Some b'
         /\ terminated_within b' /\ well_formed b')
     /\ (forall s, exists b',
         mutt_buffer_addstr junk (Some b) (Some s) = Some b'
         /\ terminated_within b' /\ well_formed b')
     /\ (forall c, exists b',
         mutt_buffer_addch junk (Some b) c = Some b'
         /\ terminated_within b' /\ well_formed b')
     /\ (forall out,
         (Z.of_nat (dsize b) + Z.of_nat (length out) + 129 < 2 ^ 31)%Z ->
         terminated_within (mutt_buffer_printf junk b (Some out)).1
         /\ well_formed (mutt_buffer_printf junk b (Some out)).1)
     /\ (forall offset,
         terminated_within b -> offset <= cursor b ->
         terminated_within (mutt_buffer_truncate b offset)
         /\ well_formed (mutt_buffer_truncate b offset)))
  /\ (forall seed, exists b',
         mutt_buffer_from (Some seed) = Some b'
         /\ nul_at_cursor b' = true
         /\ cursor b' = dsize b'
         /\ well_formed b')
  /\ (well_formed mutt_buffer_new
      /\ data mutt_buffer_new = None
      /\ dptr mutt_buffer_new = None
      /\ dsize mutt_buffer_new = 0).
Proof.
  split_and!; try done.
  - intros b Hwf. split_and!.
    + intros src len. by apply mutt_buffer_add_terminated.
    + intros s. by apply mutt_buffer_add_terminated.
    + intros c. by apply mutt_buffer_add_terminated.
    + intros out Hbound. by apply mutt_buffer_printf_terminated.
    + intros offset Hterm Hoff.
      destruct (mutt_buffer_truncate_terminated b offset Hwf Hterm Hoff)
        as (H1 & H2 & _).
      done.
  - intros seed.
    destruct (mutt_buffer_from_spec seed) as (b' & Hb & Hn & Hc & _ & _ & Hw).
    by exists b'.
Qed.

(** The C3 theorem at work: ['d'] appended to the buffer built from
    ["abc"]. *)
Lemma buffer_terminated_after_write_abc :
  exists b',
    mutt_buffer_addch "?" (Some abc_buffer) "d" = Some b'
    /\ terminated_within b' /\ well_formed b'.
Proof.
  destruct (buffer_terminated_after_write "?") as [Hwrite _].
  destruct (Hwrite abc_buffer) as (_ & _ & Hch & _).
  - cbn. lia.
  - exact (Hch "d"%char).
Defined.

Lemma a_buffer_addch :
  mutt_buffer_addch "?" (Some mutt_buffer_new) "a" = Some a_buffer.
Proof. reflexivity. Qed.

(** C7, as stated, fails: with capacity 128 and cursor 1, 126 bytes remain;
    an append of 128 bytes does not fit, and the capacity grows by 129
    ([len + 1]), not by [max(128, 128 + 1 - 126)] = 128. *)
Lemma mutt_buffer_add_growth_not_max :
  exists b',
    mutt_buffer_add "?" (Some a_buffer) (Some (replicate 128 "x"%char)) 128
    = Some b'
    /\ dsize a_buffer - cursor a_buffer - 1 = 126
    /\ dsize b' = dsize a_buffer + 129
    /\ dsize b'
       <> dsize a_buffer
          + Nat.max 128 (128 + 1 - (dsize a_buffer - cursor a_buffer - 1)).
Proof.
  eexists. split; [vm_compute; reflexivity|].
  split_and!; [reflexivity | reflexivity |].
  vm_compute. discriminate.
Qed.

(** C7 (amended).  An append of [len] bytes to a well-formed buffer never
    decreases [dsize]; it leaves [dsize] as it is when the bytes and the
    terminator fit, and otherwise adds exactly 128 to it when [len < 128] and
    exactly [len + 1] when not, which always makes room for the write; the
    bytes written before are kept, and the new ones follow them. *)
Theorem mutt_buffer_add_growth (junk : ascii) (b : Buffer)
    (src : list ascii) (len : nat) :
  well_formed b ->
  exists b',
    mutt_buffer_add junk (Some b) (Some src) len = Some b'
    /\ dsize b <= dsize b'
    /\ (cursor b + len + 1 <= dsize b -> dsize b' = dsize b)
    /\ (dsize b < cursor b + len + 1 ->
        dsize b' = dsize b + (if bool_decide (len < 128) then 128 else len + 1))
    /\ cursor b' = cursor b + len
    /\ cursor b' + 1 <= dsize b'
    /\ take (cursor b) (written b') = written b
    /\ (len <= length src -> written b' = written b ++ take len src).
Proof.
  intros Hwf.
  destruct (mutt_buffer_add_spec junk b src len Hwf)
    as (d' & -> & Hpast & Hlen & Hcur & Hnul & Hkeep & Happ).
  eexists. split; [reflexivity|].
  unfold written, cursor in *.
  cbn [dsize dptr data ptr_diff default] in *.
  rewrite Hpast in *. fold (add_increment len).
  split_and!.
  - lia.
  - intros Hfit. rewrite bool_decide_eq_false_2 by lia. lia.
  - intros Hfit. by rewrite bool_decide_eq_true_2 by lia.
  - done.
  - lia.
  - rewrite take_take, Nat.min_l by lia. done.
  - done.
Qed.

(** The C7 theorem at work: one byte appended to the buffer built from
    ["abc"], whose capacity 3 grows by 128. *)
Lemma mutt_buffer_add_growth_abc :
  exists b',
    mutt_buffer_add "?" (Some abc_buffer) (Some ["d"%char]) 1 = Some b'
    /\ dsize b' = 131 /\ written b' = chars "abcd".
Proof.
  destruct (mutt_buffer_add_growth "?" abc_buffer ["d"%char] 1)
    as (b' & Hb & _ & _ & Hgrow & _ & _ & _ & Happ).
  - cbn. lia.
  - exists b'. split_and!.
    + exact Hb.
    + apply Hgrow. cbn. lia.
    + apply Happ. cbn. lia.
Defined.

(** C9, as stated, fails: an append of length zero to a fresh empty buffer
    allocates 128 bytes and stores the terminator. *)
Lemma mutt_buffer_add_zero_length_grows :
  mutt_buffer_add "?" (Some mutt_buffer_new) (Some (literal "")) 0
  = Some {| data := Some (NUL :: replicate 127 "?"%char);
            dptr := Some 0; dsize := 128 |}
  /\ mutt_buffer_add "?" (Some mutt_buffer_new) (Some (literal "")) 0
     <> Some mutt_buffer_new.
Proof. split; [reflexivity | discriminate]. Qed.

(** C9 (amended).  The append is a no-op when the buffer handle is NULL
    and when the data pointer is NULL.  An append of length zero of data
    that is there leaves the cursor and the bytes written so far as they
    are and stores the terminator at the cursor; it adds 128 to [dsize]
    exactly when [dsize < cursor + 1] (no room for the terminator, as in a
    fresh empty buffer) and leaves [dsize] as it is otherwise.  It is a
    no-op on a buffer that has the terminator at the cursor within its
    capacity. *)
Theorem mutt_buffer_add_noop (junk : ascii) :
  (forall s len, mutt_buffer_add junk None s len = None)
  /\ (forall b len, mutt_buffer_add junk (Some b) None len = Some b)
  /\ (forall b src, well_formed b ->
      exists b',
        mutt_buffer_add junk (Some b) (Some src) 0 = Some b'
        /\ cursor b' = cursor b
        /\ written b' = written b
        /\ nul_at_cursor b' = true
        /\ dsize b'
           = dsize b + (if bool_decide (dsize b < cursor b + 1) then 128 else 0))
  /\ (forall b src, well_formed b -> terminated_within b ->
      mutt_buffer_add junk (Some b) (Some src) 0 = Some b).
Proof.
  split_and!.
  - done.
  - done.
  - intros b src Hwf.
    destruct (mutt_buffer_add_spec junk b src 0 Hwf)
      as (d' & -> & Hpast & Hlen & Hcur & Hnul & Hkeep & _).
    eexists. split; [reflexivity|].
    unfold written, cursor, nul_at_cursor in *.
    cbn [dsize dptr data ptr_diff default] in *.
    rewrite Nat.add_0_r in *. rewrite Hpast.
    split_and!; try done.
    by rewrite bool_decide_eq_true.
  - intros b src Hwf [Hnul Hcur].
    destruct b as [[d|] [off|] ds]; cbn in *; try done.
    unfold nul_at_cursor, cursor_below_dsize, cursor in *. cbn in *.
    rewrite bool_decide_eq_true in Hnul, Hcur.
    unfold mutt_buffer_add, past_end. cbn.
    rewrite bool_decide_eq_false_2 by lia. cbn.
    unfold memcpy. cbn.
    rewrite Nat.add_0_r, list_insert_id by done. done.
Qed.

(** The C9 theorem at work: a zero-length append to the buffer that holds
    ["a"] changes nothing. *)
Lemma mutt_buffer_add_noop_a :
  mutt_buffer_add "?" (Some a_buffer) (Some (literal "")) 0 = Some a_buffer.
Proof.
  destruct (mutt_buffer_add_noop "?") as (_ & _ & _ & Hnoop).
  apply Hnoop.
  - cbn. lia.
  - split; reflexivity.
Defined.

End BufferFacts.

(** ** Properties of imap/auth_plain.c *)

Module AuthPlainFacts.
Import AuthPlain.

(** *** C strings in blocks *)

Lemma strlen_app (a r : list ascii) :
  no_nul a -> strlen (a ++ r) = length a + strlen r.
Proof.
  induction 1 as [|c a Hc _ IH]; cbn; [done|].
  rewrite decide_False by done. by rewrite IH.
Qed.

Lemma no_nul_take_strlen (m : list ascii) : no_nul (take (strlen m) m).
Proof.
  induction m as [|c m IH]; cbn; [constructor|].
  case_decide; cbn; [constructor|]. by constructor.
Qed.

Lemma strlen_drop_strlen (m : list ascii) : strlen (drop (strlen m) m) = 0.
Proof.
  induction m as [|c m IH]; cbn; [done|].
  case_decide as Hc; cbn; [|done]. by rewrite decide_True.
Qed.

(** The string read at an offset, when the block holds it there followed by
    something a reader stops at. *)
Lemma c_str_app (pre a r : list ascii) :
  no_nul a -> strlen r = 0 -> c_str (pre ++ a ++ r) (length pre) = a.
Proof.
  intros Ha Hr. unfold c_str.
  rewrite drop_app_length, strlen_app, Hr, Nat.add_0_r by done.
  by rewrite take_app_length.
Qed.

Lemma c_str_app_0 (a r : list ascii) :
  no_nul a -> strlen r = 0 -> c_str (a ++ r) 0 = a.
Proof. intros Ha Hr. by apply (c_str_app [] a r). Qed.

(** A block read as a string from its start: the string, then a rest at
    which a reader stops. *)
Lemma c_str_0_inv (m a : list ascii) :
  c_str m 0 = a ->
  no_nul a /\ m = a ++ drop (length a) m /\ strlen (drop (length a) m) = 0.
Proof.
  unfold c_str. rewrite drop_0. intros <-.
  pose proof (BufferFacts.strlen_le m) as Hle.
  rewrite length_take, Nat.min_l by done.
  split_and!.
  - apply no_nul_take_strlen.
  - by rewrite take_drop.
  - apply strlen_drop_strlen.
Qed.

(** *** The split of the message in the driver's buffer *)

Lemma keyword_no_nul : no_nul keyword.
Proof. repeat constructor; discriminate. Qed.

Lemma split_after_keyword_app (payload rest : list ascii) :
  split_after_keyword (keyword ++ SP :: payload ++ rest)
  = keyword ++ NUL :: payload ++ rest.
Proof. reflexivity. Qed.

(** C8.  In a buffer that holds the command text, keyword, space and
    payload, the store of the terminator over the space leaves the keyword
    as the string at the start of the buffer, changes no other byte, and
    leaves the payload as the string that starts after the keyword and
    the terminator. *)
Theorem split_after_keyword_frame (buf payload : list ascii) :
  c_str buf 0 = chars "AUTHENTICATE PLAIN" ++ SP :: payload ->
  c_str (split_after_keyword buf) 0 = chars "AUTHENTICATE PLAIN"
  /\ length (split_after_keyword buf) = length buf
  /\ (forall i, i <> sizeof auth_plain_cmd - 1 ->
        split_after_keyword buf !! i = buf !! i)
  /\ drop (sizeof auth_plain_cmd) (split_after_keyword buf)
     = drop (sizeof auth_plain_cmd) buf
  /\ c_str (split_after_keyword buf) (sizeof auth_plain_cmd) = payload.
Proof.
  fold keyword. intros Hbuf.
  split_and!.
  - destruct (c_str_0_inv _ _ Hbuf) as (Hnn & Hm & Hrest).
    revert Hm Hrest. generalize (drop (length (keyword ++ SP :: payload)) buf).
    intros rest -> Hrest.
    rewrite <- app_assoc. cbn [app].
    rewrite (split_after_keyword_app payload rest).
    apply c_str_app_0; [apply keyword_no_nul | done].
  - apply length_insert.
  - intros i Hi. unfold split_after_keyword.
    by rewrite list_lookup_insert_ne.
  - unfold split_after_keyword. by rewrite drop_insert_lt by (cbn; lia).
  - destruct (c_str_0_inv _ _ Hbuf) as (Hnn & Hm & Hrest).
    revert Hm Hrest. generalize (drop (length (keyword ++ SP :: payload)) buf).
    intros rest -> Hrest.
    rewrite <- app_assoc. cbn [app].
    rewrite (split_after_keyword_app payload rest).
    apply Forall_app in Hnn as [_ Hnn]. apply Forall_cons in Hnn as [_ Hnn].
    change (sizeof auth_plain_cmd) with (length (keyword ++ [NUL])).
    replace (keyword ++ NUL :: payload ++ rest)
      with ((keyword ++ [NUL]) ++ payload ++ rest)
      by (by rewrite <- app_assoc).
    by apply c_str_app.
Qed.

(** *** The helpers of the driver *)

Lemma c_str_0 (s : list ascii) : c_str s 0 = take (strlen s) s.
Proof. unfold c_str. by rewrite drop_0. Qed.

(** [mutt_str_strcat] on a string that has room behind it: the string at
    the offset is the old one followed by the appended one. *)
Lemma mutt_str_strcat_app (pre a rest : list ascii) (l : nat)
    (s : list ascii) :
  no_nul a -> strlen rest = 0 ->
  length a + strlen s + 1 <= l -> strlen s + 1 <= length rest ->
  c_str (mutt_str_strcat (pre ++ a ++ rest) (length pre) l s) (length pre)
  = a ++ c_str s 0.
Proof.
  intros Ha Hrest Hl Hroom.
  unfold mutt_str_strcat. destruct l as [|room]; [lia|].
  rewrite drop_app_length, strlen_app, Hrest, Nat.add_0_r by done.
  rewrite (Nat.min_l (length a)) by lia.
  rewrite (Nat.min_l (strlen s)) by lia.
  rewrite c_str_0. unfold memcpy.
  set (n := strlen s) in *.
  pose proof (BufferFacts.strlen_le s) as Hs. fold n in Hs.
  assert (length (take n s) = n) as Hn by (rewrite length_take; lia).
  rewrite (app_assoc pre a rest).
  replace (length pre + length a) with (length (pre ++ a) + 0)
    by (rewrite length_app; lia).
  rewrite list_inserts_app_r.
  rewrite <- (take_drop n rest) at 1.
  rewrite list_inserts_0_r by (rewrite Hn, length_take; lia).
  replace (length (pre ++ a) + 0 + n)
    with (length ((pre ++ a) ++ take n s) + 0)
    by (rewrite !length_app, Hn; lia).
  rewrite (app_assoc (pre ++ a)), insert_app_r.
  destruct (drop n rest) as [|c rest'] eqn:Hdrop.
  { apply (f_equal length) in Hdrop. rewrite length_drop in Hdrop.
    cbn in Hdrop. lia. }
  cbn [list_insert insert].
  rewrite <- !app_assoc.
  rewrite (app_assoc a).
  apply c_str_app.
  - apply Forall_app. split; [done|]. apply no_nul_take_strlen.
  - reflexivity.
Qed.

(** The loop returns at once when [rc] is not [IMAP_CMD_CONTINUE]. *)
Lemma step_while_continue_settled (rc : ImapCmd) (sv : list ImapCmd)
    (tr : list Event) :
  rc <> IMAP_CMD_CONTINUE -> step_while_continue rc sv tr = (Some rc, sv, tr).
Proof. intros Hrc. destruct rc, sv; done. Qed.

(** The loop entered with [IMAP_CMD_CONTINUE]: what it returns, what it
    leaves in store, and the steps it adds to the trace. *)
Lemma step_while_continue_spec (sv : list ImapCmd) (tr : list Event) :
  step_while_continue IMAP_CMD_CONTINUE sv tr
  = (settled sv, drop (length (consumed sv)) sv,
     tr ++ (imap_cmd_step <$> consumed sv)).
Proof.
  revert tr. induction sv as [|r sv IH]; intros tr.
  - cbn. by rewrite app_nil_r.
  - cbn [step_while_continue consumed settled].
    destruct (decide (r = IMAP_CMD_CONTINUE)) as [->|Hr].
    + rewrite IH. cbn. by rewrite <- app_assoc.
    + by rewrite step_while_continue_settled.
Qed.

Lemma settled_not_continue (sv : list ImapCmd) (r : ImapCmd) :
  settled sv = Some r -> r <> IMAP_CMD_CONTINUE.
Proof.
  induction sv as [|r' sv IH]; cbn; [done|].
  case_decide; [done|]. congruence.
Qed.

Lemma settled_last_consumed (sv : list ImapCmd) (r : ImapCmd) :
  settled sv = Some r -> last (consumed sv) = Some r.
Proof.
  induction sv as [|r' sv IH]; cbn [settled consumed]; [done|].
  case_decide as Hr; [subst r'|].
  - intros Hs. specialize (IH Hs).
    destruct (consumed sv); [done|]. done.
  - by intros [= ->].
Qed.

Lemma wire_app (tr1 tr2 : list Event) : wire (tr1 ++ tr2) = wire tr1 ++ wire tr2.
Proof. apply List.filter_app. Qed.

Lemma wire_steps (k : list ImapCmd) : wire (imap_cmd_step <$> k) = [].
Proof. induction k as [|r k IH]; [done|]. exact IH. Qed.

Lemma errors_app (tr1 tr2 : list Event) :
  errors (tr1 ++ tr2) = errors tr1 + errors tr2.
Proof. unfold errors. by rewrite List.filter_app, length_app. Qed.

Lemma errors_steps (k : list ImapCmd) : errors (imap_cmd_step <$> k) = 0.
Proof.
  unfold errors. induction k as [|r k IH]; [done|]. exact IH.
Qed.

Lemma steps_app (tr1 tr2 : list Event) :
  steps (tr1 ++ tr2) = steps tr1 ++ steps tr2.
Proof. apply omap_app. Qed.

Lemma steps_steps (k : list ImapCmd) : steps (imap_cmd_step <$> k) = k.
Proof. induction k as [|r k IH]; [done|]. cbn. by f_equal. Qed.

(** *** The driver, once the credentials are there *)

Section Run.

Variables STRING SASL_IR : nat.
Variables mutt_account_getuser mutt_account_getpass
  : ConnAccount -> Z * ConnAccount.
Variable encode_plain : list ascii -> list ascii -> list ascii -> list ascii.
Variable method : list ascii.
Variable w : World.

Variables (r1 r2 : Z) (a1 a2 : ConnAccount).
Hypothesis Huser : mutt_account_getuser (account (mbox w)) = (r1, a1).
Hypothesis Huser_ok : (0 <= r1)%Z.
Hypothesis Hpass : mutt_account_getpass a1 = (r2, a2).
Hypothesis Hpass_ok : (0 <= r2)%Z.

(** The flow of control of the driver, with the loops resolved. *)
Lemma imap_auth_plain_run :
  imap_auth_plain STRING SASL_IR mutt_account_getuser mutt_account_getpass
    encode_plain method w
  = let mdata := {| account := a2; capabilities := capabilities (mbox w) |} in
    let ir := mutt_bit_isset (capabilities (mbox w)) SASL_IR in
    let tr1 := trace w
               ++ [mutt_message "Logging in...";
                   imap_cmd_start
                     (if ir then full_text STRING encode_plain a2
                      else keyword_text STRING encode_plain a2)]
               ++ (imap_cmd_step <$> consumed (server w)) in
    let sv' := drop (length (consumed (server w))) (server w) in
    match settled (server w) with
    | None => (None, {| mbox := mdata; server := sv'; trace := tr1 |})
    | Some rc =>
        (Some (classify rc),
         {| mbox := mdata; server := sv';
            trace := tr1
                     ++ (if ir then []
                         else if decide (rc = IMAP_CMD_RESPOND)
                              then [mutt_socket_send
                                      (response_text STRING encode_plain a2)]
                              else [])
                     ++ report rc ++ [mutt_clear_error] |})
    end.
Proof.
  unfold imap_auth_plain.
  rewrite Huser, bool_decide_eq_false_2 by lia.
  rewrite Hpass, bool_decide_eq_false_2 by lia.
  fold (message_buf STRING encode_plain a2). cbn [capabilities].
  destruct (mutt_bit_isset (capabilities (mbox w)) SASL_IR).
  - cbn zeta. rewrite step_while_continue_spec.
    fold (full_text STRING encode_plain a2).
    destruct (settled (server w)) as [rc|].
    + destruct rc; cbn; rewrite <- ?app_assoc; reflexivity.
    + cbn. rewrite <- ?app_assoc. reflexivity.
  - cbn zeta. rewrite step_while_continue_spec.
    fold (keyword_text STRING encode_plain a2).
    fold (response_text STRING encode_plain a2).
    destruct (settled (server w)) as [rc|] eqn:Hsettled.
    + pose proof (settled_not_continue _ _ Hsettled) as Hrc.
      destruct rc; try done;
        rewrite ?step_while_continue_settled by done;
        cbn -[response_text keyword_text];
        rewrite <- ?app_assoc; reflexivity.
    + cbn. rewrite <- ?app_assoc. reflexivity.
Qed.

End Run.

(** *** The texts the driver hands over *)

Section Texts.

Variable STRING : nat.
Variable encode_plain : list ascii -> list ascii -> list ascii -> list ascii.
Variable a2 : ConnAccount.

Local Abbreviation payload := (encode_plain (user a2) (user a2) (pass a2)).

Lemma message_buf_eq :
  length payload + 20 <= STRING ->
  message_buf STRING encode_plain a2
  = keyword ++ SP :: payload
    ++ NUL :: replicate (STRING - 20 - length payload) NUL.
Proof.
  intros Hfit. unfold message_buf, mutt_sasl_plain_msg, sizeof.
  rewrite length_replicate.
  change (c_str auth_plain_cmd 0) with keyword.
  assert (length (keyword ++ [SP] ++ payload) = 19 + length payload) as Hlen.
  { rewrite !length_app. cbn. lia. }
  rewrite take_ge by lia.
  replace STRING
    with (length ((keyword ++ [SP] ++ payload) ++ [NUL])
          + (STRING - 20 - length payload)) at 1
    by (rewrite length_app, Hlen; cbn; lia).
  rewrite replicate_add.
  rewrite list_inserts_0_r by (by rewrite length_replicate).
  by rewrite <- !app_assoc.
Qed.

Lemma full_text_eq :
  no_nul payload -> length payload + 20 <= STRING ->
  full_text STRING encode_plain a2 = keyword ++ SP :: payload.
Proof.
  intros Hnul Hfit. unfold full_text. rewrite message_buf_eq by done.
  change (keyword ++ SP :: payload ++ ?r)
    with ((keyword ++ SP :: payload) ++ r).
  apply c_str_app_0; [|done].
  apply Forall_app. split; [apply keyword_no_nul|].
  constructor; [discriminate | done].
Qed.

Lemma keyword_text_eq :
  length payload + 20 <= STRING ->
  keyword_text STRING encode_plain a2 = keyword.
Proof.
  intros Hfit. unfold keyword_text. rewrite message_buf_eq by done.
  rewrite split_after_keyword_app.
  apply c_str_app_0; [apply keyword_no_nul | done].
Qed.

Lemma response_text_eq :
  no_nul payload -> length payload + 22 <= STRING ->
  response_text STRING encode_plain a2 = payload ++ [CR; LF].
Proof.
  intros Hnul Hfit. unfold response_text, sizeof.
  rewrite message_buf_eq by lia.
  rewrite split_after_keyword_app.
  assert (length (keyword ++ NUL :: payload
                  ++ NUL :: replicate (STRING - 20 - length payload) NUL)
          = STRING) as ->.
  { rewrite length_app, length_cons, length_app, length_cons,
      length_replicate. cbn. lia. }
  change (length auth_plain_cmd) with (length (keyword ++ [NUL])).
  replace (keyword ++ NUL :: payload
           ++ NUL :: replicate (STRING - 20 - length payload) NUL)
    with ((keyword ++ [NUL]) ++ payload
          ++ NUL :: replicate (STRING - 20 - length payload) NUL)
    by (by rewrite <- app_assoc).
  rewrite mutt_str_strcat_app; try done.
  - change (strlen crlf) with 2.
    change (length (keyword ++ [NUL])) with 19. lia.
  - change (strlen crlf) with 2.
    rewrite length_cons, length_replicate. lia.
Qed.

End Texts.

(** *** The claims about the driver *)

(** C1: the code departs from the claim.  Without SASL-IR and with the
    results CONTINUE, RESPOND, CONTINUE, NO in store, the driver sends the
    payload after RESPOND and then returns at once: it reports success with
    no error notification, the last result it took is RESPOND, which is not
    terminal, and the rejection that follows is left in store. *)
Theorem imap_auth_plain_stops_at_respond :
  let out :=
    imap_auth_plain 256 11 account_ready account_ready sample_encode []
      (sample_world false
         [IMAP_CMD_CONTINUE; IMAP_CMD_RESPOND; IMAP_CMD_CONTINUE; IMAP_CMD_NO])
  in
  out.1 = Some IMAP_AUTH_SUCCESS
  /\ steps (trace out.2) = [IMAP_CMD_CONTINUE; IMAP_CMD_RESPOND]
  /\ (exists rc, last (steps (trace out.2)) = Some rc /\ terminal rc = false)
  /\ server out.2 = [IMAP_CMD_CONTINUE; IMAP_CMD_NO]
  /\ errors (trace out.2) = 0
  /\ trace out.2
     = [mutt_message "Logging in...";
        imap_cmd_start (chars "AUTHENTICATE PLAIN");
        imap_cmd_step IMAP_CMD_CONTINUE;
        imap_cmd_step IMAP_CMD_RESPOND;
        mutt_socket_send (sample_payload ++ [CR; LF]);
        mutt_clear_error].
Proof.
  vm_compute. split_and!; try reflexivity.
  by exists IMAP_CMD_RESPOND.
Qed.

Section Claims.

Variables STRING SASL_IR : nat.
Variables mutt_account_getuser mutt_account_getpass
  : ConnAccount -> Z * ConnAccount.
Variable encode_plain : list ascii -> list ascii -> list ascii -> list ascii.
Variable method : list ascii.
Variable w : World.

Variables (r1 r2 : Z) (a1 a2 : ConnAccount).
Hypothesis Huser : mutt_account_getuser (account (mbox w)) = (r1, a1).
Hypothesis Hpass : mutt_account_getpass a1 = (r2, a2).

Local Abbreviation out :=
  (imap_auth_plain STRING SASL_IR mutt_account_getuser mutt_account_getpass
     encode_plain method w).

Local Abbreviation payload := (encode_plain (user a2) (user a2) (pass a2)).



(** C5.  When the user name or the password is not obtained, the driver
    returns FAILURE and the trace is what it was: no command is started and
    nothing is sent. *)
Theorem imap_auth_plain_no_credentials :
  (r1 < 0)%Z \/ (r2 < 0)%Z ->
  out.1 = Some IMAP_AUTH_FAILURE
  /\ trace out.2 = trace w
  /\ wire (trace out.2) = wire (trace w)
  /\ server out.2 = server w.
Proof.
  intros Hfail. unfold imap_auth_plain.
  rewrite Huser. case_bool_decide; [done|].
  rewrite Hpass. rewrite bool_decide_eq_true_2 by lia. done.
Qed.

(** C6 (amended).  Once both credentials are obtained the driver shows
    "Logging in...", and whenever it returns, [mutt_clear_error] is the last
    thing it does; it returns whenever a result other than CONTINUE is in
    store.  The two returns for credentials that are not obtained come
    before the notification and leave the trace as it was. *)
Theorem imap_auth_plain_clear_error :
  ((0 <= r1)%Z /\ (0 <= r2)%Z ->
     mutt_message "Logging in..." ∈ trace out.2
     /\ (forall rc, settled (server w) = Some rc -> out.1 <> None)
     /\ (forall res, out.1 = Some res ->
           last (trace out.2) = Some mutt_clear_error))
  /\ ((r1 < 0)%Z \/ (r2 < 0)%Z ->
      out.1 = Some IMAP_AUTH_FAILURE /\ trace out.2 = trace w).
Proof.
  split.
  - intros [Hr1 Hr2].
    rewrite (imap_auth_plain_run _ _ _ _ _ _ _ r1 r2 a1 a2) by done.
    cbn zeta.
    destruct (settled (server w)) as [rc|]; cbn [fst snd trace].
    + split_and!; [|done|].
      * set_solver.
      * intros _ _. by rewrite !app_assoc, last_snoc.
    + split_and!; [|done|done].
      set_solver.
  - intros Hfail. unfold imap_auth_plain.
    rewrite Huser. case_bool_decide; [done|].
    rewrite Hpass. rewrite bool_decide_eq_true_2 by lia. done.
Qed.

(** C10.  Without SASL-IR and with the credentials obtained, when the
    first result after the command that is not CONTINUE is OK, the driver
    returns SUCCESS; its wire traffic is the one command and no send, and
    it reports no error. *)
Theorem imap_auth_plain_ok_without_continuation (n : nat)
    (rest : list ImapCmd) :
  (0 <= r1)%Z -> (0 <= r2)%Z ->
  mutt_bit_isset (capabilities (mbox w)) SASL_IR = false ->
  server w = replicate n IMAP_CMD_CONTINUE ++ IMAP_CMD_OK :: rest ->
  out.1 = Some IMAP_AUTH_SUCCESS
  /\ (exists text, wire (trace out.2) = wire (trace w) ++ [imap_cmd_start text])
  /\ errors (trace out.2) = errors (trace w)
  /\ server out.2 = rest.
Proof.
  intros Hr1 Hr2 Hir Hsv.
  rewrite (imap_auth_plain_run _ _ _ _ _ _ _ r1 r2 a1 a2) by done.
  cbn zeta. rewrite Hir, Hsv.
  assert (settled (replicate n IMAP_CMD_CONTINUE ++ IMAP_CMD_OK :: rest)
          = Some IMAP_CMD_OK) as ->.
  { clear. induction n as [|n IH]; [done|]. exact IH. }
  assert (consumed (replicate n IMAP_CMD_CONTINUE ++ IMAP_CMD_OK :: rest)
          = replicate n IMAP_CMD_CONTINUE ++ [IMAP_CMD_OK]) as ->.
  { clear. induction n as [|n IH]; [done|]. cbn. by rewrite IH. }
  cbn [fst snd trace server classify report].
  case_decide; [done|].
  split_and!.
  - done.
  - eexists. rewrite !wire_app, wire_steps. cbn. by rewrite app_nil_r.
  - rewrite !errors_app, errors_steps. cbn. lia.
  - rewrite length_app, length_replicate. cbn.
    rewrite drop_app_ge by (rewrite length_replicate; lia).
    rewrite length_replicate.
    by replace (n + 1 - n) with 1 by lia.
Qed.

(** The departure of C1 in general: without SASL-IR, whenever the first
    result that is not CONTINUE is RESPOND, the driver returns SUCCESS with
    RESPOND as the last result it took, whatever the command layer has in
    store after it. *)
Lemma imap_auth_plain_respond_is_final :
  (0 <= r1)%Z -> (0 <= r2)%Z ->
  mutt_bit_isset (capabilities (mbox w)) SASL_IR = false ->
  settled (server w) = Some IMAP_CMD_RESPOND ->
  out.1 = Some IMAP_AUTH_SUCCESS
  /\ last (steps (trace out.2)) = Some IMAP_CMD_RESPOND
  /\ server out.2 = drop (length (consumed (server w))) (server w).
Proof.
  intros Hr1 Hr2 Hir Hsettled.
  rewrite (imap_auth_plain_run _ _ _ _ _ _ _ r1 r2 a1 a2) by done.
  cbn zeta. rewrite Hir, Hsettled. cbn [fst snd trace server classify report].
  rewrite decide_True by done.
  split_and!; try done.
  rewrite !steps_app, steps_steps. cbn. rewrite app_nil_r, last_app.
  by rewrite (settled_last_consumed _ _ Hsettled).
Qed.

End Claims.

(** *** The claims at work in the sample environment *)

(** The C8 theorem at work: the buffer of the sample payload. *)
Lemma split_after_keyword_frame_sample :
  let buf := chars "AUTHENTICATE PLAIN" ++ SP :: sample_payload ++ [NUL] in
  c_str (split_after_keyword buf) 0 = chars "AUTHENTICATE PLAIN"
  /\ c_str (split_after_keyword buf) (sizeof auth_plain_cmd) = sample_payload.
Proof.
  intros buf.
  destruct (split_after_keyword_frame buf sample_payload)
    as (Hkey & _ & _ & _ & Hpay).
  - reflexivity.
  - split; [exact Hkey | exact Hpay].
Defined.




(** The C5 theorem at work: the prompt for the user name is cancelled. *)
Lemma imap_auth_plain_no_credentials_sample :
  let out :=
    imap_auth_plain 256 11 prompt_cancelled account_ready sample_encode []
      (sample_world false [IMAP_CMD_CONTINUE; IMAP_CMD_OK]) in
  out.1 = Some IMAP_AUTH_FAILURE /\ trace out.2 = [].
Proof.
  intros out.
  destruct (imap_auth_plain_no_credentials 256 11 prompt_cancelled
              account_ready sample_encode []
              (sample_world false [IMAP_CMD_CONTINUE; IMAP_CMD_OK])
              (-1) 0 sample_account sample_account)
    as (Hres & Htrace & _).
  - reflexivity.
  - reflexivity.
  - left. lia.
  - split; [exact Hres | exact Htrace].
Defined.

(** C6, as stated, fails: when the prompt for the user name, or the one
    for the password, is cancelled, the driver returns FAILURE and
    [mutt_clear_error] is not called. *)
Lemma imap_auth_plain_returns_without_clear_error :
  let out_user :=
    imap_auth_plain 256 11 prompt_cancelled account_ready sample_encode []
      (sample_world false [IMAP_CMD_OK]) in
  let out_pass :=
    imap_auth_plain 256 11 account_ready prompt_cancelled sample_encode []
      (sample_world false [IMAP_CMD_OK]) in
  (out_user.1 = Some IMAP_AUTH_FAILURE /\ mutt_clear_error ∉ trace out_user.2)
  /\ (out_pass.1 = Some IMAP_AUTH_FAILURE
      /\ mutt_clear_error ∉ trace out_pass.2).
Proof.
  cbn zeta. split; (split; [reflexivity | apply not_elem_of_nil]).
Qed.

(** The C6 theorem at work: acceptance without SASL-IR. *)
Lemma imap_auth_plain_clear_error_sample :
  let out :=
    imap_auth_plain 256 11 account_ready account_ready sample_encode []
      (sample_world false [IMAP_CMD_OK]) in
  out.1 = Some IMAP_AUTH_SUCCESS
  /\ last (trace out.2) = Some mutt_clear_error.
Proof.
  intros out.
  destruct (imap_auth_plain_clear_error 256 11 account_ready account_ready
              sample_encode [] (sample_world false [IMAP_CMD_OK])
              0 0 sample_account sample_account) as [Hok _].
  - reflexivity.
  - reflexivity.
  - destruct Hok as (_ & _ & Hlast); [lia|].
    split; [reflexivity|]. by apply (Hlast IMAP_AUTH_SUCCESS).
Defined.

(** The C10 theorem at work: CONTINUE, then OK, without SASL-IR. *)
Lemma imap_auth_plain_ok_without_continuation_sample :
  let out :=
    imap_auth_plain 256 11 account_ready account_ready sample_encode []
      (sample_world false [IMAP_CMD_CONTINUE; IMAP_CMD_OK]) in
  out.1 = Some IMAP_AUTH_SUCCESS
  /\ (exists text, wire (trace out.2) = [imap_cmd_start text])
  /\ errors (trace out.2) = 0
  /\ server out.2 = [].
Proof.
  apply (imap_auth_plain_ok_without_continuation 256 11 account_ready
           account_ready sample_encode []
           (sample_world false [IMAP_CMD_CONTINUE; IMAP_CMD_OK])
           0 0 sample_account sample_account eq_refl eq_refl 1 []).
  - lia.
  - lia.
  - reflexivity.
  - reflexivity.
Defined.

End AuthPlainFacts.

(** ** Further properties of lib/lib_buffer.c *)

Module BufferMore.
Import Buffer BufferFacts.

(** What a reader of the block sees from its start, when the terminator is at
    [off] and no byte before it is one. *)
Lemma c_str_upto (d : list ascii) (off : nat) :
  d !! off = Some NUL -> no_nul (take off d) -> c_str d 0 = take off d.
Proof.
  intros Hnul Hpre.
  rewrite <- (take_drop_middle d off NUL Hnul) at 1.
  by apply AuthPlainFacts.c_str_app_0.
Qed.

Lemma take_inserts_app (l k k' : list ascii) (i : nat) :
  i + length k <= length l ->
  take (i + length k) (list_inserts i (k ++ k') l) = take i l ++ k.
Proof.
  intros Hl.
  rewrite list_inserts_app_l.
  replace (i + length k) with (length k + i) by lia.
  rewrite take_inserts.
  replace (length k + i) with (i + length k) by lia.
  pose proof (take_memcpy l k i (length k) (take i l) Hl) as Hcpy.
  unfold memcpy in Hcpy. rewrite (take_ge k) in Hcpy by lia.
  by apply Hcpy.
Qed.

(** The multiple of 128 above the cursor, when the cursor moves by one. *)
Lemma capacity_step (n : nat) :
  128 * (n / 128 + 1)
  + (if bool_decide (128 * (n / 128 + 1) < n + 2) then 128 else 0)
  = 128 * ((n + 1) / 128 + 1).
Proof.
  pose proof (Nat.div_mod_eq n 128) as Hq.
  pose proof (Nat.mod_upper_bound n 128 ltac:(lia)) as Hr.
  pose proof (Nat.div_mod_eq (n + 1) 128) as Hq'.
  pose proof (Nat.mod_upper_bound (n + 1) 128 ltac:(lia)) as Hr'.
  case_bool_decide.
  - assert ((n + 1) / 128 = n / 128 + 1) as -> by lia. lia.
  - assert ((n + 1) / 128 = n / 128) as -> by lia. lia.
Qed.

Section More.

Variable junk : ascii.

(** One [mutt_buffer_addstr] on a well-formed buffer. *)
Lemma mutt_buffer_addstr_step (b : Buffer) (s : list ascii) :
  well_formed b ->
  exists b' d',
    mutt_buffer_addstr junk (Some b) (Some s) = Some b'
    /\ data b' = Some d'
    /\ well_formed b'
    /\ cursor b' = cursor b + strlen s
    /\ d' !! cursor b' = Some NUL
    /\ written b' = written b ++ c_str s 0.
Proof.
  intros Hwf. unfold mutt_buffer_addstr, mutt_strlen.
  destruct (mutt_buffer_add_spec junk b s (strlen s) Hwf)
    as (d' & -> & _ & Hlen & Hcur & Hnul & _ & Happ).
  eexists _, d'. split; [reflexivity|].
  unfold well_formed, cursor, written in *.
  cbn [data dptr dsize ptr_diff default] in *.
  split_and!; try done; try lia.
  rewrite AuthPlainFacts.c_str_0. apply Happ, strlen_le.
Qed.

(** A run of [mutt_buffer_addstr] from a buffer that has its block and
    the terminator at the cursor. *)
Lemma mutt_buffer_addstr_all_from (ss : list (list ascii)) :
  forall (b : Buffer) (d : list ascii),
    well_formed b -> data b = Some d -> d !! cursor b = Some NUL ->
    exists b' d',
      mutt_buffer_addstr_all junk (Some b) ss = Some b'
      /\ data b' = Some d'
      /\ well_formed b'
      /\ d' !! cursor b' = Some NUL
      /\ written b' = written b ++ concat (map (fun s => c_str s 0) ss).
Proof.
  induction ss as [|s ss IH]; intros b d Hwf Hd Hnul.
  - exists b, d. cbn. by rewrite app_nil_r.
  - destruct (mutt_buffer_addstr_step b s Hwf)
      as (b1 & d1 & Hb1 & Hd1 & Hwf1 & _ & Hnul1 & Hw1).
    destruct (IH b1 d1 Hwf1 Hd1 Hnul1)
      as (b' & d' & Hb' & Hd' & Hwf' & Hnul' & Hw').
    exists b', d'. unfold mutt_buffer_addstr_all in *. cbn [foldl].
    rewrite Hb1. split_and!; try done.
    rewrite Hw', Hw1. cbn [map concat]. by rewrite <- app_assoc.
Qed.

(** One [mutt_buffer_addch] on a well-formed buffer. *)
Lemma mutt_buffer_addch_step (b : Buffer) (c : ascii) :
  well_formed b ->
  exists b',
    mutt_buffer_addch junk (Some b) c = Some b'
    /\ well_formed b'
    /\ cursor b' = cursor b + 1
    /\ dsize b'
       = dsize b + (if bool_decide (dsize b < cursor b + 2) then 128 else 0)
    /\ written b' = written b ++ [c].
Proof.
  intros Hwf. unfold mutt_buffer_addch.
  destruct (mutt_buffer_add_spec junk b [c] 1 Hwf)
    as (d' & -> & Hpast & Hlen & Hcur & Hnul & _ & Happ).
  eexists. split; [reflexivity|].
  rewrite Hpast in *.
  unfold well_formed, cursor, written in *.
  cbn [data dptr dsize ptr_diff default] in *.
  split_and!; try done; try lia.
  - repeat case_bool_decide; try lia; reflexivity.
  - apply Happ. cbn. lia.
Qed.

(** A run of [mutt_buffer_addch] keeps the capacity at the multiple of 128
    above the cursor. *)
Lemma mutt_buffer_addch_all_from (l : list ascii) :
  forall b : Buffer,
    well_formed b -> dsize b = 128 * (cursor b / 128 + 1) ->
    exists b',
      mutt_buffer_addch_all junk (Some b) l = Some b'
      /\ well_formed b'
      /\ cursor b' = cursor b + length l
      /\ dsize b' = 128 * (cursor b' / 128 + 1)
      /\ written b' = written b ++ l.
Proof.
  induction l as [|c l IH]; intros b Hwf Hds.
  - exists b. cbn. rewrite app_nil_r, Nat.add_0_r. done.
  - destruct (mutt_buffer_addch_step b c Hwf)
      as (b1 & Hb1 & Hwf1 & Hc1 & Hds1 & Hw1).
    assert (dsize b1 = 128 * (cursor b1 / 128 + 1)) as Hinv.
    { rewrite Hds1, Hc1, Hds. apply capacity_step. }
    destruct (IH b1 Hwf1 Hinv) as (b' & Hb' & Hwf' & Hc' & Hds' & Hw').
    exists b'. unfold mutt_buffer_addch_all in *. cbn [foldl].
    rewrite Hb1. split_and!; try done.
    + rewrite Hc', Hc1. cbn. lia.
    + rewrite Hw', Hw1. by rewrite <- app_assoc.
Qed.

(** X1.  [mutt_buffer_from] returns NULL for a NULL seed.  For a seed that
    is there, the buffer holds a copy of the seed's string: a reader of its
    block sees the seed's string, the bytes written are that string, cursor
    and [dsize] are its length, and the block is one byte longer. *)
Theorem mutt_buffer_from_round_trip :
  mutt_buffer_from None = None
  /\ forall seed : list ascii,
      exists b d,
        mutt_buffer_from (Some seed) = Some b
        /\ data b = Some d
        /\ c_str d 0 = c_str seed 0
        /\ written b = c_str seed 0
        /\ cursor b = strlen seed
        /\ dsize b = strlen seed
        /\ length d = strlen seed + 1.
Proof.
  split; [done|]. intros seed.
  eexists _, _. split; [reflexivity|]. split; [reflexivity|].
  pose proof (length_c_str_0 seed) as Hlen.
  unfold written, cursor. cbn.
  split_and!; try done.
  - apply AuthPlainFacts.c_str_app_0; [|done].
    rewrite AuthPlainFacts.c_str_0. apply AuthPlainFacts.no_nul_take_strlen.
  - rewrite take_app_length'; done.
  - rewrite length_app, Hlen. done.
Qed.

(** X2.  Strings appended one after the other with [mutt_buffer_addstr]
    to a well-formed buffer: the bytes written are the old ones followed by
    the strings in order, each up to its terminator; when the old bytes hold
    no NUL, a reader of the block sees exactly these bytes. *)
Theorem mutt_buffer_addstr_all_appends (b : Buffer) (s : list ascii)
    (ss : list (list ascii)) :
  well_formed b ->
  exists b' d',
    mutt_buffer_addstr_all junk (Some b) (s :: ss) = Some b'
    /\ data b' = Some d'
    /\ well_formed b'
    /\ written b'
       = written b ++ concat (map (fun s => c_str s 0) (s :: ss))
    /\ (no_nul (written b) ->
        c_str d' 0
        = written b ++ concat (map (fun s => c_str s 0) (s :: ss))).
Proof.
  intros Hwf.
  destruct (mutt_buffer_addstr_step b s Hwf)
    as (b1 & d1 & Hb1 & Hd1 & Hwf1 & _ & Hnul1 & Hw1).
  destruct (mutt_buffer_addstr_all_from ss b1 d1 Hwf1 Hd1 Hnul1)
    as (b' & d' & Hb' & Hd' & Hwf' & Hnul' & Hw').
  assert (written b'
          = written b ++ concat (map (fun s => c_str s 0) (s :: ss))) as Hw.
  { rewrite Hw', Hw1. cbn [map concat]. by rewrite <- app_assoc. }
  exists b', d'. unfold mutt_buffer_addstr_all in *. cbn [foldl].
  rewrite Hb1. split_and!; try done.
  intros Hold. rewrite <- Hw.
  unfold written in *. rewrite Hd' in *. cbn [default] in *.
  apply c_str_upto; [done|].
  rewrite Hw. apply Forall_app. split; [done|].
  generalize (s :: ss). intros l.
  induction l as [|x l IHl]; cbn; [constructor|].
  apply Forall_app. split; [|done].
  rewrite AuthPlainFacts.c_str_0. apply AuthPlainFacts.no_nul_take_strlen.
Qed.

(** X3.  The first append to a buffer built from a seed always
    reallocates: the capacity becomes the seed's length plus 128, or plus
    [len + 1] when [len] is 128 or more, and the bytes written are the
    seed's string followed by the appended bytes. *)
Theorem mutt_buffer_from_then_add (seed src : list ascii) (len : nat) :
  exists b b',
    mutt_buffer_from (Some seed) = Some b
    /\ mutt_buffer_add junk (Some b) (Some src) len = Some b'
    /\ dsize b'
       = strlen seed + (if bool_decide (len < 128) then 128 else len + 1)
    /\ cursor b' = strlen seed + len
    /\ (len <= length src -> written b' = c_str seed 0 ++ take len src).
Proof.
  destruct (mutt_buffer_from_spec seed)
    as (b & Hb & _ & Hcur & Hds & Hw & Hwf).
  destruct (mutt_buffer_add_spec junk b src len Hwf)
    as (d' & Hb' & Hpast & _ & _ & _ & _ & Happ).
  eexists b, _. split; [done|]. split; [exact Hb'|].
  split_and!.
  - cbn [dsize]. rewrite Hpast, bool_decide_eq_true_2 by lia.
    by rewrite Hds.
  - unfold cursor at 1. cbn [dptr ptr_diff]. by rewrite Hcur, Hds.
  - intros Hsrc. rewrite <- Hw. exact (Happ Hsrc).
Qed.

(** X4.  A string assembled character by character in a fresh empty
    buffer: the bytes written are the characters, and the capacity is the
    multiple of 128 just above their number. *)
Theorem mutt_buffer_addch_all_capacity (c : ascii) (l : list ascii) :
  exists b',
    mutt_buffer_addch_all junk (Some mutt_buffer_new) (c :: l) = Some b'
    /\ written b' = c :: l
    /\ cursor b' = S (length l)
    /\ dsize b' = 128 * (S (length l) / 128 + 1).
Proof.
  destruct (mutt_buffer_addch_step mutt_buffer_new c)
    as (b1 & Hb1 & Hwf1 & Hc1 & Hds1 & Hw1); [done|].
  cbn in Hc1, Hds1, Hw1.
  destruct (mutt_buffer_addch_all_from l b1 Hwf1)
    as (b' & Hb' & _ & Hc' & Hds' & Hw').
  { rewrite Hds1, Hc1. reflexivity. }
  exists b'. unfold mutt_buffer_addch_all in *. cbn [foldl].
  rewrite Hb1. split_and!; try done.
  - by rewrite Hw', Hw1.
  - by rewrite Hc', Hc1.
  - rewrite Hds'. by rewrite Hc', Hc1.
Qed.

Local Ltac format_sizes :=
  rewrite ?length_inserts, ?length_resize; lia.

Local Ltac format_done :=
  unfold id, cursor, written; cbn [ptr_diff dptr data default]; unfold id;
  split_and!;
  [ repeat case_bool_decide; lia
  | match goal with
    | |- list_inserts _ (take ?n ?o ++ _) _ !! _ = _ =>
        rewrite (take_ge o n) by lia
    end;
    apply lookup_inserts_end; format_sizes
  | match goal with
    | |- take _ (list_inserts _ (take ?n ?o ++ _) _) = _ =>
        rewrite (take_ge o n) by lia
    end;
    rewrite take_inserts_app by format_sizes;
    f_equal;
    repeat first
      [ rewrite take_inserts
      | rewrite (take_resize_keep junk) by format_sizes ];
    done ].

Local Ltac format_retry :=
  rewrite (to_int_id (_ + 1)) by lia;
  rewrite (to_int_id (_ - _)) by lia;
  match goal with
  | |- context [grow _ _ _ (if bool_decide (?l + 1 - ?bl < 128)%Z
                            then _ else _)] =>
      pose proof (retry_increment l bl ltac:(lia)) as Hinc;
      cbn zeta in Hinc;
      set (inc := if bool_decide (l + 1 - bl < 128)%Z
                  then 128%Z else (l + 1 - bl)%Z) in *
  end;
  first [rewrite grow_block by lia | rewrite grow_block_0 by lia];
  rewrite to_size_t_id by lia;
  rewrite vsnprintf_dptr_some by lia;
  rewrite bool_decide_eq_true_2 by lia;
  cbn [data dptr dsize fmap option_fmap option_map default];
  eexists _, _; split; [by rewrite Nat2Z.id|];
  format_done.

Local Ltac format_fits :=
  case_bool_decide;
  cbn [data dptr dsize fmap option_fmap option_map default];
  (eexists _, _; split;
   [ first [ by rewrite Nat2Z.id
           | by replace (length _) with 0 by lia; rewrite Nat.add_0_r ]
   | format_done ]).

(** [mutt_buffer_printf] on a well-formed buffer whose sizes fit an [int]:
    the capacity it leaves and the bytes it has written. *)
Lemma mutt_buffer_printf_full (b : Buffer) (out : list ascii) :
  well_formed b ->
  (Z.of_nat (dsize b) + Z.of_nat (length out) + 129 < 2 ^ 31)%Z ->
  exists d' ds',
    mutt_buffer_printf junk b (Some out)
    = ({| data := Some d'; dptr := Some (cursor b + length out);
          dsize := ds' |}, Z.of_nat (length out))
    /\ ds'
       = (let ds1 := if bool_decide (dsize b - cursor b = 0)
                     then dsize b + 128 else dsize b in
          if bool_decide (ds1 - cursor b <= length out)
          then ds1 + Nat.max 128 (length out + 1 - (ds1 - cursor b))
          else ds1)
    /\ d' !! (cursor b + length out) = Some NUL
    /\ take (cursor b + length out) d' = written b ++ out.
Proof.
  intros Hwf Hbound.
  destruct b as [[d|] [off|] ds]; cbn in Hwf, Hbound; try done.
  - destruct Hwf as [Hoff Hds].
    unfold mutt_buffer_printf, cursor, written.
    cbn [data dptr dsize ptr_diff ptr_add default].
    rewrite (to_int_id (Z.of_nat off)) by lia.
    rewrite (to_int_id (Z.of_nat ds - Z.of_nat off)) by lia.
    case_bool_decide as Hblen.
    + rewrite grow_block by lia.
      rewrite to_size_t_id by lia.
      rewrite vsnprintf_dptr_some by lia.
      case_bool_decide as Hlen.
      * format_retry.
      * format_fits.
    + rewrite to_size_t_id by lia.
      rewrite vsnprintf_dptr_some by lia.
      case_bool_decide as Hlen.
      * format_retry.
      * format_fits.
  - subst ds.
    unfold mutt_buffer_printf, cursor, written.
    cbn [data dptr dsize ptr_diff ptr_add default].
    change (Z.of_nat 0) with 0%Z.
    rewrite (to_int_id 0) by lia.
    rewrite (to_int_id (0 - 0)) by lia.
    rewrite bool_decide_eq_true_2 by lia.
    rewrite grow_block_0 by lia.
    rewrite to_size_t_id by lia.
    rewrite vsnprintf_dptr_some by lia.
    case_bool_decide as Hlen.
    + format_retry.
    + format_fits.
Qed.

(** X5.  A successful [mutt_buffer_printf] on a well-formed buffer whose
    sizes fit an [int] returns the length of the formatted output and
    appends the whole of it, whether it fitted at once or after the retry;
    when the bytes hold no NUL, a reader of the block sees exactly them. *)
Theorem mutt_buffer_printf_appends (b : Buffer) (out : list ascii) :
  well_formed b ->
  (Z.of_nat (dsize b) + Z.of_nat (length out) + 129 < 2 ^ 31)%Z ->
  (mutt_buffer_printf junk b (Some out)).2 = Z.of_nat (length out)
  /\ cursor (mutt_buffer_printf junk b (Some out)).1 = cursor b + length out
  /\ written (mutt_buffer_printf junk b (Some out)).1 = written b ++ out
  /\ (no_nul (written b ++ out) ->
      exists d',
        data (mutt_buffer_printf junk b (Some out)).1 = Some d'
        /\ c_str d' 0 = written b ++ out).
Proof.
  intros Hwf Hbound.
  destruct (mutt_buffer_printf_full b out Hwf Hbound)
    as (d' & ds' & -> & _ & Hnul & Happ).
  unfold written at 1 2. unfold cursor at 1 2.
  cbn [fst snd data dptr ptr_diff default].
  split_and!; try done.
  intros Hclean. exists d'. split; [done|].
  rewrite <- Happ. apply c_str_upto; [done|]. by rewrite Happ.
Qed.

(** X6.  The capacity after a successful [mutt_buffer_printf]: unchanged
    when the output and its terminator fit the free bytes; 128 more when no
    byte is free and the output is shorter than 128; otherwise grown by the
    larger of 128 and the bytes missing, after the 128 added first when no
    byte was free. *)
Theorem mutt_buffer_printf_growth (b : Buffer) (out : list ascii) :
  well_formed b ->
  (Z.of_nat (dsize b) + Z.of_nat (length out) + 129 < 2 ^ 31)%Z ->
  (length out < dsize b - cursor b ->
     dsize (mutt_buffer_printf junk b (Some out)).1 = dsize b)
  /\ (0 < dsize b - cursor b <= length out ->
      dsize (mutt_buffer_printf junk b (Some out)).1
      = dsize b + Nat.max 128 (length out + 1 - (dsize b - cursor b)))
  /\ (dsize b - cursor b = 0 -> length out < 128 ->
      dsize (mutt_buffer_printf junk b (Some out)).1 = dsize b + 128)
  /\ (dsize b - cursor b = 0 -> 128 <= length out ->
      dsize (mutt_buffer_printf junk b (Some out)).1
      = dsize b + 128 + Nat.max 128 (length out + 1 - 128)).
Proof.
  intros Hwf Hbound.
  destruct (mutt_buffer_printf_full b out Hwf Hbound)
    as (d' & ds' & -> & Hds & _ & _).
  cbn [fst dsize]. cbn zeta in Hds.
  assert (cursor b <= dsize b) as Hcur.
  { destruct b as [[d|] [off|] ds]; cbn in *; try done; lia. }
  split_and!; intros; subst ds'; repeat case_bool_decide; lia.
Qed.

(** X7.  A [mutt_buffer_printf] whose formatting fails returns the negative
    result of [vsnprintf] and leaves the cursor and the bytes written as
    they were; the capacity has grown by 128 when no byte was free, and not
    otherwise. *)
Theorem mutt_buffer_printf_failure (b : Buffer) :
  well_formed b ->
  (Z.of_nat (dsize b) + 128 < 2 ^ 31)%Z ->
  (mutt_buffer_printf junk b None).2 = (-1)%Z
  /\ cursor (mutt_buffer_printf junk b None).1 = cursor b
  /\ written (mutt_buffer_printf junk b None).1 = written b
  /\ dsize (mutt_buffer_printf junk b None).1
     = dsize b + (if bool_decide (dsize b - cursor b = 0) then 128 else 0)
  /\ well_formed (mutt_buffer_printf junk b None).1.
Proof.
  intros Hwf Hbound.
  destruct b as [[d|] [off|] ds]; cbn in Hwf, Hbound; try done.
  - destruct Hwf as [Hoff Hds].
    unfold mutt_buffer_printf, cursor, written.
    cbn [data dptr dsize ptr_diff ptr_add default].
    rewrite (to_int_id (Z.of_nat off)) by lia.
    rewrite (to_int_id (Z.of_nat ds - Z.of_nat off)) by lia.
    case_bool_decide as Hblen.
    + rewrite grow_block by lia.
      unfold vsnprintf_dptr, vsnprintf.
      rewrite bool_decide_eq_false_2 by lia.
      rewrite bool_decide_eq_false_2 by lia.
      rewrite bool_decide_eq_true_2 by lia.
      unfold well_formed. cbn. unfold id.
      rewrite length_resize.
      split_and!; try done; try lia.
      apply take_resize_keep; lia.
    + unfold vsnprintf_dptr, vsnprintf.
      cbn [data dptr dsize ptr_diff default].
      rewrite bool_decide_eq_false_2 by lia.
      rewrite bool_decide_eq_false_2 by lia.
      rewrite bool_decide_eq_false_2 by lia.
      unfold well_formed. cbn.
      split_and!; try done; lia.
  - subst ds. vm_compute. split_and!; try done; lia.
Qed.

End More.

(** The X2 theorem at work: ["de"] and ["f"] appended to the buffer built
    from ["abc"]. *)
Lemma mutt_buffer_addstr_all_appends_abc :
  exists b' d',
    mutt_buffer_addstr_all "?" (Some abc_buffer) [literal "de"; literal "f"]
    = Some b'
    /\ data b' = Some d'
    /\ written b' = chars "abcdef"
    /\ c_str d' 0 = chars "abcdef".
Proof.
  destruct (mutt_buffer_addstr_all_appends "?" abc_buffer (literal "de")
              [literal "f"]) as (b' & d' & Hb & Hd & _ & Hw & Hread).
  - cbn. lia.
  - exists b', d'. split_and!.
    + exact Hb.
    + exact Hd.
    + exact Hw.
    + apply Hread. by repeat constructor.
Defined.

(** The X5 theorem at work: ["de"] formatted into the buffer built from
    ["abc"]. *)
Lemma mutt_buffer_printf_appends_abc :
  (mutt_buffer_printf "?" abc_buffer (Some (chars "de"))).2 = 2%Z
  /\ written (mutt_buffer_printf "?" abc_buffer (Some (chars "de"))).1
     = chars "abcde".
Proof.
  destruct (mutt_buffer_printf_appends "?" abc_buffer (chars "de"))
    as (Hres & _ & Hw & _).
  - cbn. lia.
  - cbn. lia.
  - split; [exact Hres | exact Hw].
Defined.

(** The X6 theorem at work: the buffer built from ["abc"] has no free byte;
    a short output adds 128 to its capacity. *)
Lemma mutt_buffer_printf_growth_abc :
  dsize (mutt_buffer_printf "?" abc_buffer (Some (chars "de"))).1 = 3 + 128.
Proof.
  destruct (mutt_buffer_printf_growth "?" abc_buffer (chars "de"))
    as (_ & _ & Hfull & _).
  - cbn. lia.
  - cbn. lia.
  - apply Hfull; cbn; lia.
Defined.

(** The X7 theorem at work: a failed format on the buffer built from
    ["abc"]. *)
Lemma mutt_buffer_printf_failure_abc :
  (mutt_buffer_printf "?" abc_buffer None).2 = (-1)%Z
  /\ written (mutt_buffer_printf "?" abc_buffer None).1 = chars "abc"
  /\ dsize (mutt_buffer_printf "?" abc_buffer None).1 = 3 + 128.
Proof.
  destruct (mutt_buffer_printf_failure "?" abc_buffer)
    as (Hres & _ & Hw & Hds & _).
  - cbn. lia.
  - cbn. lia.
  - split_and!; [exact Hres | exact Hw | exact Hds].
Defined.

End BufferMore.

(** ** Further properties of imap/auth_plain.c *)

Module AuthPlainMore.
Import AuthPlain AuthPlainFacts.

(** The results a loop takes are a prefix of the store. *)
Lemma consumed_prefix (sv : list ImapCmd) :
  consumed sv ++ drop (length (consumed sv)) sv = sv.
Proof.
  induction sv as [|r sv IH]; [done|].
  cbn [consumed]. case_decide; cbn; [by rewrite IH|].
  by rewrite drop_0.
Qed.

Section Obtained.

Variables STRING SASL_IR : nat.
Variables mutt_account_getuser mutt_account_getpass
  : ConnAccount -> Z * ConnAccount.
Variable encode_plain : list ascii -> list ascii -> list ascii -> list ascii.
Variable method : list ascii.
Variable w : World.

Variables (r1 r2 : Z) (a1 a2 : ConnAccount).
Hypothesis Huser : mutt_account_getuser (account (mbox w)) = (r1, a1).
Hypothesis Hpass : mutt_account_getpass a1 = (r2, a2).
Hypothesis Huser_ok : (0 <= r1)%Z.
Hypothesis Hpass_ok : (0 <= r2)%Z.

Local Abbreviation out :=
  (imap_auth_plain STRING SASL_IR mutt_account_getuser mutt_account_getpass
     encode_plain method w).

Local Abbreviation payload := (encode_plain (user a2) (user a2) (pass a2)).

(** X8.  With the credentials obtained, the result of the driver is decided
    by the first result in store that is not CONTINUE, and by nothing else:
    no return when there is none, UNAVAIL for BAD, FAILURE for NO, SUCCESS
    for OK and for RESPOND, with or without SASL-IR. *)
Theorem imap_auth_plain_result :
  out.1 = match settled (server w) with
          | None => None
          | Some IMAP_CMD_BAD => Some IMAP_AUTH_UNAVAIL
          | Some IMAP_CMD_NO => Some IMAP_AUTH_FAILURE
          | Some _ => Some IMAP_AUTH_SUCCESS
          end.
Proof.
  rewrite (imap_auth_plain_run _ _ _ _ _ _ _ r1 r2 a1 a2) by done.
  cbn zeta. destruct (settled (server w)) as [[]|]; reflexivity.
Qed.

(** X9.  With the credentials obtained, the driver takes from the command
    layer the results up to and with the first one that is not CONTINUE and
    no more: these are the steps it adds to the trace, and what follows
    them stays in store.  It leaves the capability bits as they were and the
    account as the two prompts left it. *)
Theorem imap_auth_plain_takes_no_more :
  steps (trace out.2) = steps (trace w) ++ consumed (server w)
  /\ server w = consumed (server w) ++ server out.2
  /\ mbox out.2 = {| account := a2; capabilities := capabilities (mbox w) |}.
Proof.
  rewrite (imap_auth_plain_run _ _ _ _ _ _ _ r1 r2 a1 a2) by done.
  cbn zeta.
  destruct (settled (server w)) as [rc|]; cbn [fst snd trace server mbox].
  - split_and!; [|by rewrite consumed_prefix|done].
    rewrite !steps_app, steps_steps.
    destruct (mutt_bit_isset _ _); [|case_decide]; destruct rc; cbn;
      by rewrite ?app_nil_r.
  - split_and!; [|by rewrite consumed_prefix|done].
    rewrite !steps_app, steps_steps. cbn. done.
Qed.

(** X10.  The whole of what the driver does, in order, once the
    credentials are obtained, the payload holds no NUL and the buffer holds
    command, payload and line terminator: the notification, the command
    (with the payload exactly when SASL-IR is set), the steps up to the
    first result that is not CONTINUE, then, when there is such a result,
    the send of the payload and CRLF (without SASL-IR, after RESPOND), the
    error notification (after NO), and the clearing of the notification. *)
Theorem imap_auth_plain_trace :
  no_nul payload -> length payload + 22 <= STRING ->
  trace out.2
  = trace w
    ++ [mutt_message "Logging in...";
        imap_cmd_start
          (if mutt_bit_isset (capabilities (mbox w)) SASL_IR
           then chars "AUTHENTICATE PLAIN" ++ SP :: payload
           else chars "AUTHENTICATE PLAIN")]
    ++ (imap_cmd_step <$> consumed (server w))
    ++ match settled (server w) with
       | None => []
       | Some rc =>
           (if mutt_bit_isset (capabilities (mbox w)) SASL_IR then []
            else if decide (rc = IMAP_CMD_RESPOND)
                 then [mutt_socket_send (payload ++ [CR; LF])] else [])
           ++ (if decide (rc = IMAP_CMD_NO)
               then [mutt_error "Login failed"] else [])
           ++ [mutt_clear_error]
       end.
Proof.
  intros Hnul Hfit.
  rewrite (imap_auth_plain_run _ _ _ _ _ _ _ r1 r2 a1 a2) by done.
  cbn zeta.
  rewrite full_text_eq, keyword_text_eq, response_text_eq by (done || lia).
  fold keyword.
  destruct (settled (server w)) as [rc|]; cbn [snd trace].
  - rewrite <- ?app_assoc. do 2 f_equal.
    destruct (mutt_bit_isset _ _); destruct rc; repeat case_decide;
      try congruence; reflexivity.
  - by rewrite app_nil_r.
Qed.

End Obtained.

(** The X8 theorem at work: with SASL-IR, a continuation request counts as
    success. *)
Lemma imap_auth_plain_result_sample :
  (imap_auth_plain 256 11 account_ready account_ready sample_encode []
     (sample_world true [IMAP_CMD_CONTINUE; IMAP_CMD_RESPOND])).1
  = Some IMAP_AUTH_SUCCESS.
Proof.
  apply (imap_auth_plain_result 256 11 account_ready account_ready
           sample_encode []
           (sample_world true [IMAP_CMD_CONTINUE; IMAP_CMD_RESPOND])
           0 0 sample_account sample_account eq_refl eq_refl).
  - lia.
  - lia.
Defined.

(** The X9 theorem at work: the BAD after the OK stays in store. *)
Lemma imap_auth_plain_takes_no_more_sample :
  let out :=
    imap_auth_plain 256 11 account_ready account_ready sample_encode []
      (sample_world true [IMAP_CMD_CONTINUE; IMAP_CMD_OK; IMAP_CMD_BAD]) in
  steps (trace out.2) = [IMAP_CMD_CONTINUE; IMAP_CMD_OK]
  /\ [IMAP_CMD_CONTINUE; IMAP_CMD_OK; IMAP_CMD_BAD]
     = [IMAP_CMD_CONTINUE; IMAP_CMD_OK] ++ server out.2
  /\ mbox out.2 = {| account := sample_account; capabilities := 2048 |}.
Proof.
  apply (imap_auth_plain_takes_no_more 256 11 account_ready account_ready
           sample_encode []
           (sample_world true [IMAP_CMD_CONTINUE; IMAP_CMD_OK; IMAP_CMD_BAD])
           0 0 sample_account sample_account eq_refl eq_refl).
  - lia.
  - lia.
Defined.

(** The X10 theorem at work: a rejection with SASL-IR. *)
Lemma imap_auth_plain_trace_sample :
  trace
    (imap_auth_plain 256 11 account_ready account_ready sample_encode []
       (sample_world true [IMAP_CMD_CONTINUE; IMAP_CMD_NO])).2
  = [mutt_message "Logging in...";
     imap_cmd_start (chars "AUTHENTICATE PLAIN" ++ SP :: sample_payload);
     imap_cmd_step IMAP_CMD_CONTINUE;
     imap_cmd_step IMAP_CMD_NO;
     mutt_error "Login failed";
     mutt_clear_error].
Proof.
  apply (imap_auth_plain_trace 256 11 account_ready account_ready
           sample_encode []
           (sample_world true [IMAP_CMD_CONTINUE; IMAP_CMD_NO])
           0 0 sample_account sample_account eq_refl eq_refl).
  - lia.
  - lia.
  - by repeat constructor.
  - simpl. lia.
Defined.

End AuthPlainMore.
